(** * domo_query: a shallow embedding of [domo_query/__init__.py]

    The package is one class, [Connection], with two lazily computed
    properties ([login], [tables]) and two methods ([find_table],
    [query]).  Every operation talks to the DOMO REST API through the
    [requests] library.  The embedding keeps

    - the instance attributes of [Connection] as a record,
    - the dict object behind [_login] in an explicit store, because
      [query] mutates it through an alias,
    - the remote service as a state machine that answers each request,
    - the list of requests issued so far, so that statements can count
      network calls,
    - Python exceptions as an outcome next to the returned value; the
      state reached when the exception is raised is kept. *)

From stdpp Require Import base strings list gmap pretty.

Module domo_query.

(** ** Python values *)

(** The JSON scalars that occur as dataset metadata fields, tokens and
    result cells.  Nested arrays and objects inside a metadata field and
    non-integer numbers are outside the model. *)
Inductive value :=
| VNone
| VBool (b : bool)
| VInt (z : Z)
| VStr (s : string).

#[global] Instance value_eq_dec : EqDecision value.
Proof. solve_decision. Defined.

(** [str(v)], as used by the f-strings of the source. *)
Definition py_str (v : value) : string :=
  match v with
  | VNone => "None"
  | VBool true => "True"
  | VBool false => "False"
  | VInt z => pretty z
  | VStr s => s
  end.

(** [v == s] for a [str] operand [s]. *)
Definition eq_str (v : value) (s : string) : bool :=
  match v with
  | VStr t => bool_decide (t = s)
  | _ => false
  end.

(** Truth value of a [str]. *)
Definition truthy_str (s : string) : bool := negb (bool_decide (s = "")).

(** A dataset metadata entry, and the record built for a result row:
    a dict with string keys. *)
Abbreviation Dataset := (gmap string value).

(** Truth value of a dict. *)
Definition truthy_dict {V} (d : gmap string V) : bool :=
  negb (bool_decide (dom d = ∅)).

(** Truth value of a list. *)
Definition truthy_list {A} (l : list A) : bool :=
  match l with [] => false | _ => true end.

(** The HTTP headers dict. *)
Abbreviation Header := (gmap string string).

(** ** Exceptions and outcomes *)

Inductive exn :=
| RequestError            (* raised by requests.get/post or by .json() *)
| KeyError (key : string) (* d[key] on a dict without key *)
| TypeError               (* s["id"] on a str *)
| ValueError (msg : string).

Inductive outcome (A : Type) :=
| Return (a : A)
| Raise (e : exn)
| Diverge.                (* the pagination loop ran out of fuel *)
Arguments Return {A} a.
Arguments Raise {A} e.
Arguments Diverge {A}.

(** ** The remote service *)

(** What [requests.get(...).json()] evaluates to: an exception, or the
    decoded body. *)
Inductive http (A : Type) :=
| Failure
| Json (body : A).
Arguments Failure {A}.
Arguments Json {A} body.

(** Body of the query endpoint: a JSON object that may lack either key. *)
Record QueryBody := mkQueryBody {
  columns : option (list string);
  rows : option (list (list value)) }.

(** The three requests the package issues.
    - [GetToken]: [requests.get(auth_url, auth=HTTPBasicAuth(client_id, secret))]
    - [GetDatasets]: [requests.get(f"{query_url}?offset={offset}&limit={limit}", headers=header)]
    - [PostQuery]: [requests.post(f"{query_url}/query/execute/{id}?includeHeaders=true",
                                   headers=header, json={"sql": sql})]
    The headers are the contents of the dict at the time of the call. *)
Inductive Request :=
| GetToken (client_id secret : string)
| GetDatasets (offset limit : nat) (headers : Header)
| PostQuery (id : string) (headers : Header) (sql : string).

(** The fixed endpoints of the class ([auth_url], [query_url]). *)
Definition auth_url : string :=
  "https://api.domo.com/oauth/token?grant_type=client_credentials&scope=data".
Definition query_url : string := "https://api.domo.com/v1/datasets".

(** The URL of each request, as the source builds it. *)
Definition request_url (r : Request) : string :=
  match r with
  | GetToken _ _ => auth_url
  | GetDatasets offset limit _ =>
      query_url +:+ "?offset=" +:+ pretty offset +:+ "&limit=" +:+ pretty limit
  | PostQuery id _ _ =>
      query_url +:+ "/query/execute/" +:+ id +:+ "?includeHeaders=true"
  end.

(** The service: a state of its own, which every request may change, and
    one answer function per endpoint.  An answer is a failure or a body
    of the shape the API documents for that endpoint: a JSON object for
    the token (with or without [access_token]), a JSON array of dataset
    objects for a listing page, a JSON object for a query result. *)
Record Endpoints (Srv : Type) := mkEndpoints {
  oauth_token : Srv → string → string → Srv * http (gmap string value);
  datasets_page : Srv → nat → nat → Header → Srv * http (list Dataset);
  query_execute : Srv → string → Header → string → Srv * http QueryBody }.
Arguments oauth_token {Srv} _ _ _ _.
Arguments datasets_page {Srv} _ _ _ _ _.
Arguments query_execute {Srv} _ _ _ _ _.

(** ** The Connection object *)

Abbreviation loc := nat.

(** [_last_id_or_name] holds the str [""] until [find_table] stores a
    table in it. *)
Inductive LastResolved :=
| LastStr (s : string)
| LastTable (table : Dataset).

Definition truthy_last (x : LastResolved) : bool :=
  match x with
  | LastStr s => truthy_str s
  | LastTable t => truthy_dict t
  end.

Record Connection := mkConnection {
  client_id : string;
  secret : string;
  _login : loc;                    (* reference to a dict object *)
  _tables : list Dataset;
  _last_id_or_name : LastResolved }.

Definition set_login (l : loc) (c : Connection) : Connection :=
  mkConnection (client_id c) (secret c) l (_tables c) (_last_id_or_name c).
Definition set_tables (t : list Dataset) (c : Connection) : Connection :=
  mkConnection (client_id c) (secret c) (_login c) t (_last_id_or_name c).
Definition set_last (x : LastResolved) (c : Connection) : Connection :=
  mkConnection (client_id c) (secret c) (_login c) (_tables c) x.

(** The whole state: the object, the store of header dicts, the service
    and the requests issued so far (oldest first). *)
Record World (Srv : Type) := mkWorld {
  self : Connection;
  heap : gmap loc Header;
  remote : Srv;
  trace : list Request }.
Arguments mkWorld {Srv} _ _ _ _.
Arguments self {Srv} _.
Arguments heap {Srv} _.
Arguments remote {Srv} _.
Arguments trace {Srv} _.

(** [Connection(client_id, secret)]: [default_factory=dict] allocates an
    empty dict for [_login], [default_factory=list] an empty list. *)
Definition new_connection {Srv} (cid sec : string) (srv : Srv) : World Srv :=
  mkWorld (mkConnection cid sec 0 [] (LastStr "")) {[ 0 := ∅ ]} srv [].

(** ** The monad of the embedding *)

Definition M (Srv A : Type) : Type := World Srv → outcome A * World Srv.

Definition ret {Srv A} (a : A) : M Srv A := λ w, (Return a, w).
Definition raise {Srv A} (e : exn) : M Srv A := λ w, (Raise e, w).
Definition diverge {Srv A} : M Srv A := λ w, (Diverge, w).
Definition bind {Srv A B} (m : M Srv A) (k : A → M Srv B) : M Srv B :=
  λ w, match m w with
       | (Return a, w') => k a w'
       | (Raise e, w') => (Raise e, w')
       | (Diverge, w') => (Diverge, w')
       end.

Notation "x <- m ;; k" := (bind m (λ x, k))
  (at level 100, m at next level, right associativity).
Notation "m ;;; k" := (bind m (λ _, k))
  (at level 100, right associativity).

Definition get_self {Srv} : M Srv Connection := λ w, (Return (self w), w).
Definition put_self {Srv} (c : Connection) : M Srv unit :=
  λ w, (Return tt, mkWorld c (heap w) (remote w) (trace w)).

(** Contents of the dict behind a reference. *)
Definition deref {Srv} (l : loc) : M Srv Header :=
  λ w, (Return (heap w !!! l), w).
(** [dict(...)]: a new object. *)
Definition alloc {Srv} (h : Header) : M Srv loc :=
  λ w, let l := fresh (dom (heap w)) in
       (Return l, mkWorld (self w) (<[l := h]> (heap w)) (remote w) (trace w)).
(** [d[k] = v] on the object itself. *)
Definition setitem {Srv} (l : loc) (k v : string) : M Srv unit :=
  λ w, (Return tt,
        mkWorld (self w) (<[l := <[k := v]> (heap w !!! l)]> (heap w))
                (remote w) (trace w)).

(** [d[k]] on a dict. *)
Definition getitem {Srv} (d : Dataset) (k : string) : M Srv value :=
  match d !! k with
  | Some v => ret v
  | None => raise (KeyError k)
  end.

(** [limit = 50], the batch size of [tables]. *)
Definition limit : nat := 50.
#[global] Arguments limit : simpl never.

Section Connection.

Context {Srv : Type} (api : Endpoints Srv).

Abbreviation M := (M Srv).

(** One round trip: the request is recorded, the service moves on, and a
    failure of the transport or of the JSON decoding is raised. *)
Definition send {A} (r : Request) (answer : Srv → Srv * http A) : M A :=
  λ w, let '(srv', resp) := answer (remote w) in
       let w' := mkWorld (self w) (heap w) srv' (trace w ++ [r]) in
       match resp with
       | Failure => (Raise RequestError, w')
       | Json body => (Return body, w')
       end.

(** *** [Connection.login] *)
Definition login : M loc :=
  c <- get_self ;;
  cached <- deref (_login c) ;;
  if truthy_dict cached then ret (_login c)
  else
    response <- send (GetToken (client_id c) (secret c))
                     (λ s, oauth_token api s (client_id c) (secret c)) ;;
    match response !! "access_token" with
    | None => raise (KeyError "access_token")
    | Some token =>
        header <- alloc {[ "Authorization" := "bearer " +:+ py_str token ]} ;;
        c <- get_self ;;
        put_self (set_login header c) ;;;
        c <- get_self ;;
        ret (_login c)
    end.

(** *** [Connection.tables] *)

(** The [while True] loop; [fuel] bounds the number of iterations. *)
Fixpoint fetch (fuel : nat) (header : loc) (offset : nat)
    (datasets : list Dataset) : M (list Dataset) :=
  match fuel with
  | 0 => diverge
  | S fuel =>
      h <- deref header ;;
      chunk <- send (GetDatasets offset limit h)
                    (λ s, datasets_page api s offset limit h) ;;
      if negb (truthy_list chunk) then ret datasets
      else fetch fuel header (offset + limit) (datasets ++ chunk)
  end.

Definition tables (fuel : nat) : M (list Dataset) :=
  c <- get_self ;;
  if truthy_list (_tables c) then ret (_tables c)
  else
    header <- login ;;
    datasets <- fetch fuel header 0 [] ;;
    c <- get_self ;;
    put_self (set_tables datasets c) ;;;
    c <- get_self ;;
    ret (_tables c).

(** *** [Connection.find_table] *)

(** [self._last_id_or_name = table; return self._last_id_or_name] *)
Definition resolve_to (table : Dataset) : M (option Dataset) :=
  c <- get_self ;;
  put_self (set_last (LastTable table) c) ;;;
  ret (Some table).

(** The [for table in self.tables] loop; falling off its end returns
    [None]. *)
Fixpoint scan (id_or_name : string) (tables : list Dataset)
    : M (option Dataset) :=
  match tables with
  | [] => ret None
  | table :: tables =>
      name <- getitem table "name" ;;
      if eq_str name id_or_name then resolve_to table
      else
        id <- getitem table "id" ;;
        if eq_str id id_or_name then resolve_to table
        else scan id_or_name tables
  end.

Definition find_table (fuel : nat) (id_or_name : string)
    : M (option Dataset) :=
  tables <- tables fuel ;;
  scan id_or_name tables.

(** *** [Connection.query] *)

(** [self._last_id_or_name["id"]] *)
Definition last_id (x : LastResolved) : M value :=
  match x with
  | LastStr _ => raise TypeError
  | LastTable t => getitem t "id"
  end.

(** [response[key]] on the decoded body. *)
Definition field {A} (key : string) (x : option A) : M A :=
  match x with
  | Some a => ret a
  | None => raise (KeyError key)
  end.

(** [dict(pairs)]: pairs are inserted from left to right, so the last
    pair with a given key wins. *)
Definition py_dict (pairs : list (string * value)) : Dataset :=
  foldl (λ d kv, <[kv.1 := kv.2]> d) ∅ pairs.

Definition default_sql : string := "select * from table".
(** [sql or "select * from table"] *)
Definition sql_or_default (sql : string) : string :=
  if truthy_str sql then sql else default_sql.
Definition usage_error : exn := ValueError "Must provide Dataset ID or Name.".

(** The [if]/[elif]/[else] of [query] that picks the dataset id. *)
Definition dataset_id (fuel : nat) (id_or_name : string) : M value :=
  c <- get_self ;;
  if truthy_str id_or_name && truthy_last (_last_id_or_name c) then
    last_id (_last_id_or_name c)
  else if negb (truthy_str id_or_name)
          && negb (truthy_last (_last_id_or_name c)) then
    raise usage_error
  else
    find_table fuel id_or_name ;;;
    c <- get_self ;;
    last_id (_last_id_or_name c).

Definition query (fuel : nat) (sql id_or_name : string)
    : M (list Dataset) :=
  header <- login ;;
  setitem header "Accept" "application/json" ;;;
  let sql := sql_or_default sql in
  id <- dataset_id fuel id_or_name ;;
  h <- deref header ;;
  response <- send (PostQuery (py_str id) h sql)
                   (λ s, query_execute api s (py_str id) h sql) ;;
  columns <- field "columns" (columns response) ;;
  rows <- field "rows" (rows response) ;;
  ret (map (λ row, py_dict (zip columns row)) rows).

(** A call on the object from outside, and the state it leaves behind
    whatever its outcome. *)
Inductive call :=
| Login
| Tables (fuel : nat)
| FindTable (fuel : nat) (id_or_name : string)
| Query (fuel : nat) (sql id_or_name : string).

Definition perform (c : call) (w : World Srv) : World Srv :=
  match c with
  | Login => (login w).2
  | Tables fuel => (tables fuel w).2
  | FindTable fuel id_or_name => (find_table fuel id_or_name w).2
  | Query fuel sql id_or_name => (query fuel sql id_or_name w).2
  end.

Definition perform_all (cs : list call) (w : World Srv) : World Srv :=
  foldl (λ w c, perform c w) w cs.

End Connection.

(** ** Measurements on states *)

(** The entry has the two keys that [find_table] reads. *)
Definition well_formed (t : Dataset) : bool :=
  bool_decide (is_Some (t !! "name")) && bool_decide (is_Some (t !! "id")).

(** [t[key] == x], false when the key is missing. *)
Definition key_is (key x : string) (t : Dataset) : bool :=
  match t !! key with
  | Some v => eq_str v x
  | None => false
  end.

(** The entry matches [x] on its name or on its id. *)
Definition matches (x : string) (t : Dataset) : bool :=
  key_is "name" x t || key_is "id" x t.

(** The state after [self._last_id_or_name = table]. *)
Definition resolved {Srv} (table : Dataset) (w : World Srv) : World Srv :=
  mkWorld (set_last (LastTable table) (self w)) (heap w) (remote w) (trace w).

Definition is_post (r : Request) : bool :=
  match r with PostQuery _ _ _ => true | _ => false end.

(** Is an authorization header cached? ([if self._login]) *)
Definition cached_header {Srv} (w : World Srv) : bool :=
  truthy_dict (heap w !!! _login (self w)).

(** Is a catalog cached? ([if self._tables]) *)
Definition cached_tables {Srv} (w : World Srv) : bool :=
  truthy_list (_tables (self w)).

Definition is_listing (r : Request) : bool :=
  match r with GetDatasets _ _ _ => true | _ => false end.

(** Number of dataset-listing requests in a trace. *)
Definition listing_requests (t : list Request) : nat :=
  length (filter (λ r, is_listing r = true) t).

(** The listing requests of one pagination pass that needs [n] of them:
    offsets [offset], [offset + limit], ... *)
Definition page_requests (h : Header) (offset n : nat) : list Request :=
  (λ i, GetDatasets (offset + limit * i) limit h) <$> seq 0 n.
#[global] Arguments page_requests : simpl never.

(** [header['Accept'] = 'application/json'] applied to a state. *)
Definition with_accept {Srv} (l : loc) (w : World Srv) : World Srv :=
  (setitem l "Accept" "application/json" w).2.

(** The cached header, if there is one, carries the [Authorization] key. *)
Definition authorized {Srv} (w : World Srv) : Prop :=
  cached_header w = true →
  is_Some ((heap w !!! _login (self w)) !! "Authorization").

(** The dict behind [_login] carries both keys. *)
Definition both_keys {Srv} (w : World Srv) : Prop :=
  ∃ h, heap w !! _login (self w) = Some h
       ∧ is_Some (h !! "Authorization")
       ∧ h !! "Accept" = Some "application/json".

(** ** Services *)

(** A service whose state counts the requests it has answered and whose
    answers may depend on that count. *)
Definition scripted
    (tok : nat → http (gmap string value))
    (lst : nat → nat → nat → http (list Dataset))
    (qry : nat → string → string → http QueryBody) : Endpoints nat :=
  mkEndpoints nat
    (λ n _ _, (S n, tok n))
    (λ n offset limit _, (S n, lst n offset limit))
    (λ n id _ sql, (S n, qry n id sql)).

Definition token_ok : http (gmap string value) :=
  Json {[ "access_token" := VStr "t0k3n" ]}.

(** The slice of a catalog that the listing endpoint serves. *)
Definition page (catalog : list Dataset) (offset limit : nat) : list Dataset :=
  take limit (drop offset catalog).

(** The listing endpoint serves slices of [catalog], whatever the state
    of the service. *)
Definition serves_catalog {Srv} (api : Endpoints Srv)
    (catalog : list Dataset) : Prop :=
  ∀ s offset limit h,
    (datasets_page api s offset limit h).2 = Json (page catalog offset limit).


(** A well-behaved service over a fixed catalog and a fixed query body. *)
Definition paged (catalog : list Dataset) (body : QueryBody) : Endpoints nat :=
  scripted (λ _, token_ok)
           (λ _ offset limit, Json (page catalog offset limit))
           (λ _ _ _, Json body).

Definition dataset (id name : string) : Dataset :=
  {[ "id" := VStr id; "name" := VStr name ]}.

Definition numbered (i : nat) : Dataset :=
  dataset ("A" +:+ pretty i) ("N" +:+ pretty i).

Definition catalog_of_size (n : nat) : list Dataset := numbered <$> seq 0 n.

Definition sales_catalog : list Dataset :=
  [dataset "A1" "Sales"; dataset "A2" "Inventory"].

Definition body_id_val : QueryBody :=
  mkQueryBody (Some ["id"; "val"])
              (Some [[VInt 1; VStr "x"]; [VInt 2; VStr "y"]]).

(** A service with no dataset until it has answered two requests, and
    one dataset afterwards. *)
Definition growing : Endpoints nat :=
  scripted (λ _, token_ok)
           (λ n offset limit,
              Json (if n <? 2 then [] else page [numbered 0] offset limit))
           (λ _ _ _, Json body_id_val).

(** A service over 60 datasets whose listing endpoint answers the first
    page and fails afterwards. *)
Definition second_page_fails : Endpoints nat :=
  scripted (λ _, token_ok)
           (λ _ offset limit,
              if offset =? 0 then Json (page (catalog_of_size 60) 0 limit)
              else Failure)
           (λ _ _ _, Json body_id_val).

(** A service whose query endpoint names two columns alike. *)
Definition body_twice_a : QueryBody :=
  mkQueryBody (Some ["a"; "a"]) (Some [[VInt 1; VInt 2]]).

Definition sales_api : Endpoints nat := paged sales_catalog body_id_val.
Definition twice_a_api : Endpoints nat := paged sales_catalog body_twice_a.
Definition api_120 : Endpoints nat := paged (catalog_of_size 120) body_id_val.
Definition api_0 : Endpoints nat := paged [] body_id_val.

Definition fresh_world : World nat := new_connection "client" "s3cret" 0.

(** The state after [find_table("Sales")] on the sales catalog. *)
Definition sales_resolved : World nat :=
  (find_table sales_api 5 "Sales" fresh_world).2.

(** ** Further measurements and services *)

Definition is_token (r : Request) : bool :=
  match r with GetToken _ _ => true | _ => false end.

(** Number of token requests in a trace. *)
Definition token_requests (t : list Request) : nat :=
  length (filter (λ r, is_token r = true) t).

(** The request is one an authenticated client would send: a token
    request with the given credentials, or a request whose headers hold
    the [Authorization] entry (and [Accept] for a query). *)
Definition authenticated (cid sec : string) (r : Request) : Prop :=
  match r with
  | GetToken c s => c = cid ∧ s = sec
  | GetDatasets _ _ h => is_Some (h !! "Authorization")
  | PostQuery _ h _ =>
      is_Some (h !! "Authorization")
      ∧ h !! "Accept" = Some "application/json"
  end.

(** The request was sent with the header [h], or with [h] extended by
    the Accept entry; a query-execution request always with the latter. *)
Definition sent_with (h : Header) (r : Request) : Prop :=
  match r with
  | GetToken _ _ => False
  | GetDatasets _ _ hr => hr = h ∨ hr = <["Accept" := "application/json"]> h
  | PostQuery _ hr _ => hr = <["Accept" := "application/json"]> h
  end.

(** The listing endpoint answers by the offset alone. *)
Definition answers_by_offset {Srv} (api : Endpoints Srv)
    (pages : nat → list Dataset) : Prop :=
  ∀ s offset limit h,
    (datasets_page api s offset limit h).2 = Json (pages offset).

(** The listing endpoint never answers with an empty page. *)
Definition never_empty {Srv} (api : Endpoints Srv) : Prop :=
  ∀ s offset limit h,
    ∃ t chunk, (datasets_page api s offset limit h).2 = Json (t :: chunk).

(** The pages collected by one pass with [k] non-empty pages. *)
Definition collected (pages : nat → list Dataset) (k : nat) : list Dataset :=
  concat ((λ i, pages (limit * i)) <$> seq 0 k).
#[global] Arguments collected : simpl never.

(** A service over 60 datasets that never puts more than 25 in a page. *)
Definition capped_pages (offset : nat) : list Dataset :=
  take 25 (drop offset (catalog_of_size 60)).
Definition capped : Endpoints nat :=
  scripted (λ _, token_ok) (λ _ offset _, Json (capped_pages offset))
           (λ _ _ _, Json body_id_val).

(** A service that answers every listing request with the same page. *)
Definition endless : Endpoints nat :=
  scripted (λ _, token_ok) (λ _ _ _, Json [numbered 0])
           (λ _ _ _, Json body_id_val).

(** A service whose token endpoint fails. *)
Definition no_token : Endpoints nat :=
  scripted (λ _, Failure) (λ _ offset limit, Json (page sales_catalog offset limit))
           (λ _ _ _, Json body_id_val).

(** A catalog whose second entry has no name. *)
Definition nameless_catalog : list Dataset :=
  [dataset "A1" "Sales"; {[ "id" := VStr "A2" ]}; dataset "A3" "Stock"].
Definition nameless_api : Endpoints nat := paged nameless_catalog body_id_val.

(** * Properties *)

Section Properties.

Context {Srv : Type} (api : Endpoints Srv).
Implicit Types (w : World Srv) (l : loc) (fuel : nat).

Ltac run :=
  unfold bind, get_self, put_self, deref, alloc, setitem, getitem, send,
         ret, raise, diverge in *; cbn in *.

Lemma truthy_dict_insert {V} (k : string) (v : V) (d : gmap string V) :
  truthy_dict (<[k := v]> d) = true.
Proof.
  unfold truthy_dict. rewrite dom_insert_L.
  rewrite bool_decide_eq_false_2; [done | set_solver].
Qed.

Lemma truthy_dict_empty {V} : truthy_dict (∅ : gmap string V) = false.
Proof. unfold truthy_dict. by rewrite dom_empty_L, bool_decide_eq_true_2. Qed.

Lemma truthy_dict_lookup {V} (k : string) (v : V) (d : gmap string V) :
  d !! k = Some v → truthy_dict d = true.
Proof.
  intros H. unfold truthy_dict.
  rewrite bool_decide_eq_false_2; [done |].
  intros E. apply (elem_of_dom_2 d) in H. set_solver.
Qed.

(** *** login *)

Lemma login_cached w :
  cached_header w = true → login api w = (Return (_login (self w)), w).
Proof. unfold cached_header, login. run. by intros ->. Qed.

Lemma login_fetch w srv' body token :
  cached_header w = false →
  oauth_token api (remote w) (client_id (self w)) (secret (self w))
    = (srv', Json body) →
  body !! "access_token" = Some token →
  let l := fresh (dom (heap w)) in
  login api w =
    (Return l,
     mkWorld (set_login l (self w))
       (<[l := {[ "Authorization" := "bearer " +:+ py_str token ]}]> (heap w))
       srv' (trace w ++ [GetToken (client_id (self w)) (secret (self w))])).
Proof.
  unfold cached_header, login. run. intros -> -> ->. reflexivity.
Qed.

Lemma login_fail w srv' :
  cached_header w = false →
  oauth_token api (remote w) (client_id (self w)) (secret (self w))
    = (srv', Failure) →
  login api w =
    (Raise RequestError,
     mkWorld (self w) (heap w) srv'
       (trace w ++ [GetToken (client_id (self w)) (secret (self w))])).
Proof. unfold cached_header, login. run. intros -> ->. reflexivity. Qed.

Lemma login_no_token w srv' body :
  cached_header w = false →
  oauth_token api (remote w) (client_id (self w)) (secret (self w))
    = (srv', Json body) →
  body !! "access_token" = None →
  login api w =
    (Raise (KeyError "access_token"),
     mkWorld (self w) (heap w) srv'
       (trace w ++ [GetToken (client_id (self w)) (secret (self w))])).
Proof. unfold cached_header, login. run. intros -> -> ->. reflexivity. Qed.

(** Whatever [login] does, it leaves the catalog, the last resolved
    dataset and the credentials alone. *)
Lemma login_frame w o w' :
  login api w = (o, w') →
  _tables (self w') = _tables (self w)
  ∧ _last_id_or_name (self w') = _last_id_or_name (self w)
  ∧ client_id (self w') = client_id (self w)
  ∧ secret (self w') = secret (self w).
Proof.
  unfold login. run.
  destruct (truthy_dict _); [by intros [= <- <-] |].
  destruct (oauth_token _ _ _ _) as [srv' [|body]]; [by intros [= <- <-] |].
  destruct (body !! "access_token"); by intros [= <- <-].
Qed.

(** A successful [login] returns the reference stored in [_login], and
    the dict behind it is not empty. *)
Lemma login_return w l w1 :
  login api w = (Return l, w1) →
  _login (self w1) = l ∧ cached_header w1 = true.
Proof.
  unfold login, cached_header. run.
  destruct (truthy_dict _) eqn:E; [by intros [= <- <-] |].
  destruct (oauth_token _ _ _ _) as [srv' [|body]]; [done |].
  destruct (body !! "access_token"); [| done].
  intros [= <- <-]. simpl. split; [done |].
  rewrite lookup_total_insert_eq. apply truthy_dict_insert.
Qed.

(** A failing [login] has issued the token request and cached nothing. *)
Lemma login_raise w e w1 :
  login api w = (Raise e, w1) →
  self w1 = self w ∧ heap w1 = heap w ∧ cached_header w = false
  ∧ trace w1 = trace w ++ [GetToken (client_id (self w)) (secret (self w))].
Proof.
  unfold login, cached_header. run.
  destruct (truthy_dict _) eqn:E; [done |].
  destruct (oauth_token _ _ _ _) as [srv' [|body]]; [by intros [= <- <-] |].
  destruct (body !! "access_token"); by intros [= <- <-].
Qed.

Lemma login_total w : (login api w).1 ≠ Diverge.
Proof.
  unfold login. run.
  destruct (truthy_dict _); [done |].
  destruct (oauth_token _ _ _ _) as [srv' [|body]]; [done |].
  by destruct (body !! "access_token").
Qed.

(** C7. Authentication is memoized: on a connection without a cached
    header whose token request is answered with an [access_token], the
    first [login] issues exactly one token request, stores the header
    [{"Authorization": "bearer <token>"}] in a new dict and returns it;
    a second [login] returns the same dict and changes nothing, so it
    issues no request. *)
Theorem login_twice_one_token_request w srv' body token :
  cached_header w = false →
  oauth_token api (remote w) (client_id (self w)) (secret (self w))
    = (srv', Json body) →
  body !! "access_token" = Some token →
  ∃ l w1,
    login api w = (Return l, w1)
    ∧ trace w1 = trace w ++ [GetToken (client_id (self w)) (secret (self w))]
    ∧ _login (self w1) = l
    ∧ heap w1 !! l = Some {[ "Authorization" := "bearer " +:+ py_str token ]}
    ∧ login api w1 = (Return l, w1).
Proof.
  intros Hc Hs Ht. eexists _, _.
  split; [by apply (login_fetch w srv' body token) |]. simpl.
  split_and!; try done.
  - apply lookup_insert_eq.
  - rewrite login_cached; [done |].
    unfold cached_header. simpl. rewrite lookup_total_insert_eq.
    apply truthy_dict_insert.
Qed.

(** *** tables *)

Lemma listing_requests_app (t1 t2 : list Request) :
  listing_requests (t1 ++ t2) = listing_requests t1 + listing_requests t2.
Proof. unfold listing_requests. by rewrite filter_app, length_app. Qed.

Lemma listing_requests_page h offset n :
  listing_requests (page_requests h offset n) = n.
Proof.
  unfold page_requests. generalize 0 as start.
  induction n as [|n IH]; intros start; [done |].
  simpl. unfold listing_requests in *. rewrite filter_cons_True by done.
  simpl. by rewrite IH.
Qed.

Lemma page_requests_S h offset n :
  page_requests h offset (S n)
  = GetDatasets offset limit h :: page_requests h (offset + limit) n.
Proof.
  unfold page_requests. change (seq 0 (S n)) with (0 :: seq 1 n).
  rewrite fmap_cons. f_equal; [f_equal; lia |].
  rewrite <- fmap_S_seq, <- list_fmap_compose.
  apply list_fmap_ext. intros _ i _. unfold compose. f_equal. lia.
Qed.

Lemma listing_requests_token (t : list Request) cid sec :
  listing_requests (t ++ [GetToken cid sec]) = listing_requests t.
Proof.
  rewrite listing_requests_app.
  change (listing_requests [GetToken cid sec]) with 0. lia.
Qed.

(** [login] issues no listing request. *)
Lemma login_listing w o w' :
  login api w = (o, w') →
  listing_requests (trace w') = listing_requests (trace w).
Proof.
  unfold login. run.
  destruct (truthy_dict _); [by intros [= <- <-] |].
  destruct (oauth_token _ _ _ _) as [srv' [|body]].
  - intros [= <- <-]. apply listing_requests_token.
  - destruct (body !! "access_token"); intros [= <- <-];
      apply listing_requests_token.
Qed.

(** The pagination loop touches neither the object nor the store. *)
Lemma fetch_frame fuel l offset acc w o w' :
  fetch api fuel l offset acc w = (o, w') →
  self w' = self w ∧ heap w' = heap w.
Proof.
  revert offset acc w. induction fuel as [|fuel IH]; intros offset acc w.
  - simpl. run. by intros [= <- <-].
  - simpl. run.
    destruct (datasets_page _ _ _ _ _) as [srv' [|chunk]];
      [by intros [= <- <-] |].
    destruct chunk as [|t chunk]; simpl; [by intros [= <- <-] |].
    intros H. by apply IH in H.
Qed.

(** One full pass over a served catalog: with [k] non-empty pages the
    loop issues [k + 1] requests, the last one answered by the empty
    page, and accumulates the catalog in order. *)
Lemma fetch_paged catalog :
  serves_catalog api catalog →
  ∀ fuel k l offset acc w,
    length catalog - offset ≤ limit * k →
    (k ≠ 0 → limit * (k - 1) < length catalog - offset) →
    k < fuel →
    ∃ srv',
      fetch api fuel l offset acc w =
        (Return (acc ++ drop offset catalog),
         mkWorld (self w) (heap w) srv'
                 (trace w ++ page_requests (heap w !!! l) offset (S k))).
Proof.
  intros Hsrv. induction fuel as [|fuel IH]; intros k l offset acc w Hle Hlt Hk;
    [lia |].
  cbn [fetch]. run.
  pose proof (Hsrv (remote w) offset limit (heap w !!! l)) as Hp.
  destruct (datasets_page _ _ _ _ _) as [srv' resp]. cbn in Hp. subst resp.
  unfold page. destruct (take limit (drop offset catalog)) as [|t chunk] eqn:E.
  - cbn. exists srv'.
    assert (drop offset catalog = []) as Hd.
    { destruct (drop offset catalog); [done | by unfold limit in E]. }
    assert (k = 0) as ->.
    { apply (f_equal length) in Hd. rewrite length_drop in Hd. cbn in Hd.
      unfold limit in *. lia. }
    rewrite Hd, app_nil_r. unfold page_requests. cbn.
    by rewrite Nat.mul_0_r, Nat.add_0_r.
  - cbn.
    assert (length (drop offset catalog) ≠ 0) as Hn.
    { intros Hz. apply length_zero_iff_nil in Hz. by rewrite Hz in E. }
    rewrite length_drop in Hn.
    destruct k as [|k]; [lia |].
    destruct (IH k l (offset + limit) (acc ++ t :: chunk)
                (mkWorld (self w) (heap w) srv'
                   (trace w ++ [GetDatasets offset limit (heap w !!! l)])))
      as [srv'' ->]; [unfold limit in *; lia .. |].
    exists srv''. cbn. f_equal.
    + f_equal. rewrite <- E, <- (assoc_L (++)), <- drop_drop.
      by rewrite take_drop.
    + f_equal. rewrite <- (assoc_L (++)). f_equal.
      by rewrite (page_requests_S _ offset (S k)).
Qed.

Lemma tables_cached fuel w :
  cached_tables w = true → tables api fuel w = (Return (_tables (self w)), w).
Proof. unfold cached_tables, tables. run. by intros ->. Qed.

(** Without a cached catalog, [tables] is [login], then the loop, then
    the assignment to [_tables]. *)
Lemma tables_uncached fuel w :
  cached_tables w = false →
  tables api fuel w =
    match login api w with
    | (Return l, w1) =>
        match fetch api fuel l 0 [] w1 with
        | (Return datasets, w2) =>
            (Return datasets,
             mkWorld (set_tables datasets (self w2)) (heap w2) (remote w2)
                     (trace w2))
        | (Raise e, w2) => (Raise e, w2)
        | (Diverge, w2) => (Diverge, w2)
        end
    | (Raise e, w1) => (Raise e, w1)
    | (Diverge, w1) => (Diverge, w1)
    end.
Proof.
  unfold cached_tables, tables. unfold bind at 1. unfold get_self at 1.
  intros ->. unfold bind at 1.
  destruct (login api w) as [[l| |] w1]; [| done ..].
  unfold bind at 1.
  destruct (fetch api fuel l 0 [] w1) as [[ds| |] w2]; [| done ..].
  by run.
Qed.

(** [tables] never touches the last resolved dataset or the credentials. *)
Lemma tables_frame fuel w o w' :
  tables api fuel w = (o, w') →
  _last_id_or_name (self w') = _last_id_or_name (self w)
  ∧ client_id (self w') = client_id (self w)
  ∧ secret (self w') = secret (self w).
Proof.
  destruct (cached_tables w) eqn:Hc.
  - rewrite tables_cached by done. by intros [= <- <-].
  - rewrite tables_uncached by done.
    destruct (login api w) as [[l| |] w1] eqn:Hl;
      apply login_frame in Hl as (_ & H1 & H2 & H3);
      [| by intros [= <- <-] ..].
    destruct (fetch api fuel l 0 [] w1) as [[ds| |] w2] eqn:Hf;
      apply fetch_frame in Hf as [Hs _]; intros [= <- <-]; cbn;
      rewrite ?Hs; done.
Qed.

(** One pass of [tables] over a served catalog with [k] non-empty pages. *)
Lemma tables_paged catalog fuel k w l w1 :
  serves_catalog api catalog →
  cached_tables w = false →
  login api w = (Return l, w1) →
  length catalog ≤ limit * k →
  (k ≠ 0 → limit * (k - 1) < length catalog) →
  k < fuel →
  ∃ w',
    tables api fuel w = (Return catalog, w')
    ∧ _tables (self w') = catalog
    ∧ trace w' = trace w1 ++ page_requests (heap w1 !!! l) 0 (S k)
    ∧ listing_requests (trace w') = listing_requests (trace w) + S k.
Proof.
  intros Hsrv Hc Hl Hle Hlt Hk.
  destruct (fetch_paged catalog Hsrv fuel k l 0 [] w1) as [srv' Hf];
    [rewrite ?Nat.sub_0_r; done .. |].
  rewrite tables_uncached, Hl, Hf by done. cbn.
  eexists. split_and!; try done. cbn [trace].
  rewrite listing_requests_app, listing_requests_page.
  by rewrite (login_listing _ _ _ Hl).
Qed.

(** C1 (amended). Over a catalog of 120 datasets served in pages of 50,
    a [tables] access without a cached catalog issues exactly 4 listing
    requests, at offsets 0, 50, 100 and 150 (answered with 50, 50, 20
    and 0 entries), and returns and caches all 120 entries in fetch
    order; over an empty catalog it issues exactly 1 listing request and
    returns the empty list. *)
Theorem tables_pagination catalog w l w1 :
  serves_catalog api catalog →
  cached_tables w = false →
  login api w = (Return l, w1) →
  let h := heap w1 !!! l in
  (length catalog = 120 →
   ∀ fuel, 4 ≤ fuel →
     ∃ w', tables api fuel w = (Return catalog, w')
           ∧ _tables (self w') = catalog
           ∧ trace w' = trace w1 ++ [GetDatasets 0 50 h; GetDatasets 50 50 h;
                                     GetDatasets 100 50 h; GetDatasets 150 50 h]
           ∧ listing_requests (trace w') = listing_requests (trace w) + 4)
  ∧ (length catalog = 0 →
     ∀ fuel, 1 ≤ fuel →
       ∃ w', tables api fuel w = (Return [], w')
             ∧ _tables (self w') = []
             ∧ trace w' = trace w1 ++ [GetDatasets 0 50 h]
             ∧ listing_requests (trace w') = listing_requests (trace w) + 1).
Proof.
  intros Hsrv Hc Hl h. split.
  - intros Hlen fuel Hfuel.
    destruct (tables_paged catalog fuel 3 w l w1) as (w' & ? & ? & ? & ?);
      try done; unfold limit; try lia.
    by exists w'.
  - intros Hlen fuel Hfuel.
    destruct (tables_paged catalog fuel 0 w l w1) as (w' & ? & ? & ? & ?);
      try done; unfold limit; try lia.
    apply length_zero_iff_nil in Hlen. subst catalog. by exists w'.
Qed.

(** A non-empty cached catalog is returned as it is, with no request. *)
Lemma tables_memoized fuel fuel' w catalog w1 :
  tables api fuel w = (Return catalog, w1) →
  catalog ≠ [] →
  tables api fuel' w1 = (Return catalog, w1).
Proof.
  intros Ht Hne.
  assert (_tables (self w1) = catalog) as Hcat.
  { destruct (cached_tables w) eqn:Hc.
    - rewrite tables_cached in Ht by done. by injection Ht as <- <-.
    - rewrite tables_uncached in Ht by done.
      destruct (login api w) as [[l| |] w0]; [| done ..].
      destruct (fetch api fuel l 0 [] w0) as [[ds| |] w2]; [| done ..].
      by injection Ht as <- <-. }
  rewrite tables_cached; [by rewrite Hcat |].
  unfold cached_tables. rewrite Hcat. by destruct catalog.
Qed.




(** *** find_table *)

Lemma scan_cons x t rest w :
  scan x (t :: rest) w =
    match t !! "name" with
    | None => (Raise (KeyError "name"), w)
    | Some n =>
        if eq_str n x then (Return (Some t), resolved t w)
        else match t !! "id" with
             | None => (Raise (KeyError "id"), w)
             | Some i =>
                 if eq_str i x then (Return (Some t), resolved t w)
                 else scan x rest w
             end
    end.
Proof.
  cbn [scan]. unfold bind at 1, getitem at 1.
  destruct (t !! "name") as [n|]; [| done]. unfold ret at 1.
  destruct (eq_str n x); [done |].
  unfold bind at 1, getitem at 1.
  destruct (t !! "id") as [i|]; [| done]. unfold ret at 1.
  by destruct (eq_str i x).
Qed.

Lemma well_formed_keys t :
  well_formed t = true → ∃ n i, t !! "name" = Some n ∧ t !! "id" = Some i.
Proof.
  unfold well_formed. intros [H1 H2]%andb_prop.
  apply bool_decide_eq_true_1 in H1 as [n Hn].
  apply bool_decide_eq_true_1 in H2 as [i Hi]. eauto.
Qed.

(** An entry that does not match is skipped. *)
Lemma scan_skip x t rest w :
  well_formed t = true → matches x t = false →
  scan x (t :: rest) w = scan x rest w.
Proof.
  intros (n & i & Hn & Hi)%well_formed_keys. unfold matches, key_is.
  rewrite Hn, Hi. intros [H1 H2]%orb_false_elim.
  by rewrite scan_cons, Hn, Hi, H1, H2.
Qed.

(** An entry whose name matches ends the scan; its id is not read. *)
Lemma scan_stop_name x t rest w :
  key_is "name" x t = true →
  scan x (t :: rest) w = (Return (Some t), resolved t w).
Proof.
  unfold key_is. rewrite scan_cons.
  destruct (t !! "name") as [n|]; [| done]. by intros ->.
Qed.

(** So does an entry that has a name and whose id matches. *)
Lemma scan_stop_id x t rest w :
  is_Some (t !! "name") → key_is "id" x t = true →
  scan x (t :: rest) w = (Return (Some t), resolved t w).
Proof.
  unfold key_is. rewrite scan_cons. intros [n ->].
  destruct (eq_str n x); [done |].
  destruct (t !! "id") as [i|]; [| done]. by intros ->.
Qed.

Lemma scan_miss x catalog w :
  Forall (λ t, well_formed t = true ∧ matches x t = false) catalog →
  scan x catalog w = (Return None, w).
Proof.
  induction 1 as [|t rest [Ht Hm] _ IH]; [done |].
  by rewrite scan_skip.
Qed.

Lemma scan_hit x pre t post w :
  Forall (λ t', well_formed t' = true ∧ matches x t' = false) pre →
  key_is "name" x t = true
    ∨ (is_Some (t !! "name") ∧ key_is "id" x t = true) →
  scan x (pre ++ t :: post) w = (Return (Some t), resolved t w).
Proof.
  intros Hpre Hhit.
  induction Hpre as [|t' pre [Ht' Hm'] _ IH]; cbn [app].
  - destruct Hhit as [Hn | [Hn Hi]];
      [by apply scan_stop_name | by apply scan_stop_id].
  - by rewrite scan_skip.
Qed.

(** The scan changes nothing but [_last_id_or_name]. *)
Lemma scan_frame x catalog w o w' :
  scan x catalog w = (o, w') →
  heap w' = heap w ∧ remote w' = remote w ∧ trace w' = trace w
  ∧ _login (self w') = _login (self w)
  ∧ _tables (self w') = _tables (self w).
Proof.
  induction catalog as [|t rest IH]; [by intros [= <- <-] |].
  rewrite scan_cons.
  destruct (t !! "name") as [n|]; [| by intros [= <- <-]].
  destruct (eq_str n x); [by intros [= <- <-] |].
  destruct (t !! "id") as [i|]; [| by intros [= <- <-]].
  destruct (eq_str i x); [by intros [= <- <-] | done].
Qed.

Lemma find_table_unfold fuel x w :
  find_table api fuel x w =
    match tables api fuel w with
    | (Return catalog, w1) => scan x catalog w1
    | (Raise e, w1) => (Raise e, w1)
    | (Diverge, w1) => (Diverge, w1)
    end.
Proof. reflexivity. Qed.

(** C4. [find_table] scans the catalog that [tables] returns, in fetch
    order.  Within an entry the name is compared first and the id only
    when the name differs.  The scan stops at the first entry that
    matches on either field: that entry is stored in
    [_last_id_or_name] and returned.  When no entry matches, [None] is
    returned and [_last_id_or_name] is what it was before the call.
    The entries that are passed over are dataset metadata: they have a
    name and an id. *)
Theorem find_table_first_match fuel x w catalog w1 :
  tables api fuel w = (Return catalog, w1) →
  (∀ pre t post,
     catalog = pre ++ t :: post →
     Forall (λ t', well_formed t' = true ∧ matches x t' = false) pre →
     key_is "name" x t = true
       ∨ (is_Some (t !! "name") ∧ key_is "id" x t = true) →
     find_table api fuel x w = (Return (Some t), resolved t w1)
     ∧ _last_id_or_name (self (resolved t w1)) = LastTable t)
  ∧ (Forall (λ t, well_formed t = true ∧ matches x t = false) catalog →
     ∃ w', find_table api fuel x w = (Return None, w')
           ∧ _last_id_or_name (self w') = _last_id_or_name (self w)).
Proof.
  intros Ht. split.
  - intros pre t post -> Hpre Hhit. split; [| done].
    rewrite find_table_unfold, Ht. by apply scan_hit.
  - intros Hmiss. exists w1. rewrite find_table_unfold, Ht.
    split; [by apply scan_miss |].
    by apply tables_frame in Ht as (? & _).
Qed.

(** *** query *)

(** The requests of [login], of the loop and of [tables] are never
    query-execution requests. *)
Lemma login_trace w o w' :
  login api w = (o, w') →
  ∃ t, trace w' = trace w ++ t ∧ Forall (λ r, is_post r = false) t.
Proof.
  unfold login. run.
  destruct (truthy_dict _).
  { intros [= <- <-]. exists []. by rewrite app_nil_r. }
  destruct (oauth_token _ _ _ _) as [srv' [|body]].
  { intros [= <- <-]. eexists. split; [done |]. by repeat constructor. }
  destruct (body !! "access_token"); intros [= <- <-];
    (eexists; split; [done |]; by repeat constructor).
Qed.

Lemma fetch_trace fuel l offset acc w o w' :
  fetch api fuel l offset acc w = (o, w') →
  ∃ t, trace w' = trace w ++ t ∧ Forall (λ r, is_post r = false) t.
Proof.
  revert offset acc w. induction fuel as [|fuel IH]; intros offset acc w.
  { cbn. run. intros [= <- <-]. exists []. by rewrite app_nil_r. }
  cbn [fetch]. run.
  destruct (datasets_page _ _ _ _ _) as [srv' [|chunk]].
  { intros [= <- <-]. eexists. split; [done |]. by repeat constructor. }
  destruct chunk as [|t chunk]; cbn.
  { intros [= <- <-]. eexists. split; [done |]. by repeat constructor. }
  intros (t' & -> & Ht')%IH. cbn. rewrite <- (assoc_L (++)).
  eexists. split; [done |]. by constructor.
Qed.

Lemma tables_trace fuel w o w' :
  tables api fuel w = (o, w') →
  ∃ t, trace w' = trace w ++ t ∧ Forall (λ r, is_post r = false) t.
Proof.
  destruct (cached_tables w) eqn:Hc.
  { rewrite tables_cached by done. intros [= <- <-].
    exists []. by rewrite app_nil_r. }
  rewrite tables_uncached by done.
  destruct (login api w) as [[l| |] w1] eqn:Hl;
    apply login_trace in Hl as (t1 & Ht1 & Hp1);
    [| intros [= <- <-]; eauto ..].
  destruct (fetch api fuel l 0 [] w1) as [[ds| |] w2] eqn:Hf;
    apply fetch_trace in Hf as (t2 & Ht2 & Hp2);
    intros [= <- <-]; cbn; rewrite Ht2, Ht1, <- (assoc_L (++));
    (eexists; split; [done |]; by apply Forall_app).
Qed.

(** An empty catalog does not count as cached: after [tables] returned
    [[]], the next access starts a new pass with a request for the
    first page. *)
Lemma fetch_first_request fuel l offset acc w :
  ∃ t, trace (fetch api (S fuel) l offset acc w).2
       = trace w ++ GetDatasets offset limit (heap w !!! l) :: t.
Proof.
  cbn [fetch]. run.
  destruct (datasets_page _ _ _ _ _) as [srv' [|chunk]]; [by exists [] |].
  destruct chunk as [|t chunk]; cbn; [by exists [] |].
  destruct (fetch api fuel l (offset + limit) (acc ++ t :: chunk) _)
    as [o w'] eqn:Hf.
  apply fetch_trace in Hf as (t' & Ht' & _). cbn in *.
  exists t'. by rewrite Ht', <- (assoc_L (++)).
Qed.

Lemma tables_empty_fetches_again fuel fuel' w w1 :
  tables api fuel w = (Return [], w1) →
  cached_tables w1 = false
  ∧ ∃ t, trace (tables api (S fuel') w1).2
         = trace w1 ++ GetDatasets 0 limit (heap w1 !!! _login (self w1)) :: t.
Proof.
  intros Ht.
  assert (cached_tables w1 = false ∧ cached_header w1 = true) as [Hc Hh].
  { destruct (cached_tables w) eqn:Hc.
    - rewrite tables_cached in Ht by done. injection Ht as Ht <-.
      unfold cached_tables in Hc. by rewrite Ht in Hc.
    - rewrite tables_uncached in Ht by done.
      destruct (login api w) as [[l| |] w0] eqn:Hl; [| done ..].
      apply login_return in Hl as [Hlog Hch].
      destruct (fetch api fuel l 0 [] w0) as [[ds| |] w2] eqn:Hf; [| done ..].
      apply fetch_frame in Hf as [Hs Hp]. injection Ht as -> <-.
      split; [done |]. unfold cached_header in *. cbn. by rewrite Hp, Hs. }
  split; [done |].
  rewrite tables_uncached, login_cached by done.
  destruct (fetch_first_request fuel' (_login (self w1)) 0 [] w1) as [t Ht'].
  destruct (fetch api (S fuel') _ 0 [] w1) as [[ds| |] w2]; by exists t.
Qed.

(** With a cached header, [tables] leaves the store and [_login] alone. *)
Lemma tables_header fuel w o w' :
  cached_header w = true →
  tables api fuel w = (o, w') →
  heap w' = heap w ∧ _login (self w') = _login (self w).
Proof.
  intros Hh. destruct (cached_tables w) eqn:Hc.
  { rewrite tables_cached by done. by intros [= <- <-]. }
  rewrite tables_uncached, login_cached by done.
  destruct (fetch api fuel _ 0 [] w) as [[ds| |] w2] eqn:Hf;
    apply fetch_frame in Hf as [Hs Hp]; intros [= <- <-]; cbn;
    by rewrite ?Hs.
Qed.

Lemma find_table_header fuel x w o w' :
  cached_header w = true →
  find_table api fuel x w = (o, w') →
  heap w' = heap w ∧ _login (self w') = _login (self w).
Proof.
  intros Hh. rewrite find_table_unfold.
  destruct (tables api fuel w) as [[catalog| |] w1] eqn:Ht;
    apply tables_header in Ht as [H1 H2]; try done;
    [| by intros [= <- <-] ..].
  intros (-> & _ & _ & -> & _)%scan_frame. done.
Qed.

Lemma last_id_frame x w o w' : last_id x w = (o, w') → w' = w.
Proof.
  destruct x as [s|t]; cbn; [by intros [= <- <-] |].
  unfold getitem. destruct (t !! "id"); by intros [= <- <-].
Qed.

Lemma dataset_id_unfold fuel x w :
  dataset_id api fuel x w =
    if truthy_str x && truthy_last (_last_id_or_name (self w)) then
      last_id (_last_id_or_name (self w)) w
    else if negb (truthy_str x)
            && negb (truthy_last (_last_id_or_name (self w))) then
      (Raise usage_error, w)
    else
      match find_table api fuel x w with
      | (Return _, w1) => last_id (_last_id_or_name (self w1)) w1
      | (Raise e, w1) => (Raise e, w1)
      | (Diverge, w1) => (Diverge, w1)
      end.
Proof.
  unfold dataset_id. unfold bind at 1, get_self at 1.
  destruct (truthy_str x && truthy_last _); [done |].
  destruct (negb (truthy_str x) && negb _); [done |].
  unfold bind at 1.
  by destruct (find_table api fuel x w) as [[r| |] w1].
Qed.

Lemma dataset_id_header fuel x w o w' :
  cached_header w = true →
  dataset_id api fuel x w = (o, w') →
  heap w' = heap w ∧ _login (self w') = _login (self w).
Proof.
  intros Hh. rewrite dataset_id_unfold.
  destruct (truthy_str x && truthy_last _).
  { by intros ->%last_id_frame. }
  destruct (negb (truthy_str x) && negb _); [by intros [= <- <-] |].
  destruct (find_table api fuel x w) as [[r| |] w1] eqn:Hf;
    apply find_table_header in Hf; try done; [| by intros [= <- <-] ..].
  by intros ->%last_id_frame.
Qed.

(** The dataset id comes from [_last_id_or_name] when both it and the
    argument are truthy. *)
Lemma dataset_id_last fuel x w t i :
  x ≠ "" →
  _last_id_or_name (self w) = LastTable t →
  t !! "id" = Some i →
  dataset_id api fuel x w = (Return i, w).
Proof.
  intros Hx Hl Hi. rewrite dataset_id_unfold, Hl. cbn.
  unfold truthy_str. rewrite bool_decide_eq_false_2 by done.
  rewrite (truthy_dict_lookup _ _ _ Hi). cbn.
  unfold getitem. by rewrite Hi.
Qed.

Lemma query_unfold fuel sql x w :
  query api fuel sql x w =
    match login api w with
    | (Return l, w1) =>
        match dataset_id api fuel x (with_accept l w1) with
        | (Return i, w2) =>
            let h := heap w2 !!! l in
            let '(srv', resp) :=
              query_execute api (remote w2) (py_str i) h (sql_or_default sql) in
            let w3 :=
              mkWorld (self w2) (heap w2) srv'
                (trace w2 ++ [PostQuery (py_str i) h (sql_or_default sql)]) in
            match resp with
            | Failure => (Raise RequestError, w3)
            | Json body =>
                match columns body with
                | None => (Raise (KeyError "columns"), w3)
                | Some cols =>
                    match rows body with
                    | None => (Raise (KeyError "rows"), w3)
                    | Some rs =>
                        (Return ((λ row, py_dict (zip cols row)) <$> rs), w3)
                    end
                end
            end
        | (Raise e, w2) => (Raise e, w2)
        | (Diverge, w2) => (Diverge, w2)
        end
    | (Raise e, w1) => (Raise e, w1)
    | (Diverge, w1) => (Diverge, w1)
    end.
Proof.
  unfold query. unfold bind at 1.
  destruct (login api w) as [[l| |] w1]; [| done ..].
  unfold bind at 1. unfold with_accept.
  destruct (setitem l "Accept" "application/json" w1) as [[[]| |] wa] eqn:Ha;
    [| done ..].
  cbn [snd]. unfold bind at 1.
  destruct (dataset_id api fuel x wa) as [[i| |] w2]; [| done ..].
  unfold bind at 1, deref at 1. unfold bind at 1, send at 1.
  destruct (query_execute _ _ _ _ _) as [srv' [|body]]; [done |].
  unfold bind at 1, field at 1.
  destruct (columns body) as [cols|]; [| done]. unfold ret at 1.
  unfold bind at 1, field at 1.
  by destruct (rows body) as [rs|].
Qed.

Lemma with_accept_cached l w : cached_header w = true → _login (self w) = l →
  cached_header (with_accept l w) = true.
Proof.
  intros _ <-. unfold cached_header, with_accept. cbn.
  rewrite lookup_total_insert_eq. apply truthy_dict_insert.
Qed.

Lemma with_accept_lookup l w :
  heap (with_accept l w) !!! l
  = <["Accept" := "application/json"]> (heap w !!! l).
Proof. unfold with_accept. cbn. apply lookup_total_insert_eq. Qed.

(** C5. With a table in [_last_id_or_name] that has an id, a [query]
    call with a non-empty [id_or_name] sends its query-execution request
    for the id of that table: the request does not depend on the
    argument, no listing request is made for it, and
    [_last_id_or_name] still holds the same table afterwards. *)
Theorem query_uses_last_resolved fuel sql x w t i l w1 :
  _last_id_or_name (self w) = LastTable t →
  t !! "id" = Some i →
  x ≠ "" →
  login api w = (Return l, w1) →
  ∃ o w',
    query api fuel sql x w = (o, w')
    ∧ trace w' =
        trace w1 ++ [PostQuery (py_str i)
                       (<["Accept" := "application/json"]> (heap w1 !!! l))
                       (sql_or_default sql)]
    ∧ _last_id_or_name (self w') = LastTable t.
Proof.
  intros Hlast Hi Hx Hl.
  pose proof (login_frame _ _ _ Hl) as (_ & Hlast1 & _).
  rewrite query_unfold, Hl.
  rewrite (dataset_id_last fuel x (with_accept l w1) t i); try done;
    [| by cbn; rewrite Hlast1].
  cbn zeta. rewrite with_accept_lookup.
  destruct (query_execute _ _ _ _ _) as [srv' [|body]].
  { eexists _, _. split; [done |]. cbn. by rewrite Hlast1. }
  destruct (columns body); [destruct (rows body) |];
    (eexists _, _; split; [done |]; cbn; by rewrite Hlast1).
Qed.

(** C2 (amended). On a freshly constructed connection, [query] with
    both arguments empty first authenticates: it issues the token
    request, and nothing else.  If the token request fails, that failure
    is raised; if the answer lacks [access_token], a [KeyError]; only
    when authentication succeeded is the usage error raised, before any
    listing or query-execution request. *)
Theorem query_without_dataset_on_new_connection cid sec srv fuel :
  ∃ o w',
    query api fuel "" "" (new_connection cid sec srv) = (o, w')
    ∧ trace w' = [GetToken cid sec]
    ∧ o = match (oauth_token api srv cid sec).2 with
          | Failure => Raise RequestError
          | Json body =>
              match body !! "access_token" with
              | None => Raise (KeyError "access_token")
              | Some _ => Raise usage_error
              end
          end.
Proof.
  set (w0 := new_connection cid sec srv).
  assert (cached_header w0 = false) as Hc.
  { unfold cached_header, w0. cbn.
    rewrite lookup_total_singleton_eq. apply truthy_dict_empty. }
  rewrite query_unfold.
  destruct (oauth_token api srv cid sec) as [srv' [|body]] eqn:E; cbn [snd].
  { rewrite (login_fail w0 srv') by done. by eexists _, _. }
  destruct (body !! "access_token") as [token|] eqn:Et.
  - rewrite (login_fetch w0 srv' body token) by done. cbn zeta.
    rewrite dataset_id_unfold. cbn. by eexists _, _.
  - rewrite (login_no_token w0 srv' body) by done. by eexists _, _.
Qed.

(** *** The records built from a response *)

Lemma py_dict_snoc pairs k v :
  py_dict (pairs ++ [(k, v)]) = <[k := v]> (py_dict pairs).
Proof. unfold py_dict. by rewrite foldl_app. Qed.

(** The last pair with a given key decides the value under that key. *)
Lemma py_dict_lookup_last pairs j c v :
  pairs !! j = Some (c, v) →
  (∀ j' v', j < j' → pairs !! j' ≠ Some (c, v')) →
  py_dict pairs !! c = Some v.
Proof.
  revert j. induction pairs as [|[k v0] pairs IH] using rev_ind; [done |].
  intros j Hj Hlast. rewrite py_dict_snoc.
  destruct (decide (j = length pairs)) as [-> | Hne].
  - rewrite list_lookup_middle in Hj by done. injection Hj as -> ->.
    apply lookup_insert_eq.
  - assert (j < length pairs) as Hlt.
    { apply lookup_lt_Some in Hj. rewrite length_app in Hj. cbn in Hj. lia. }
    rewrite lookup_app_l in Hj by done.
    rewrite lookup_insert_ne.
    + apply (IH j Hj). intros j' v' Hjj' Hj'.
      apply (Hlast j' v' Hjj'). apply lookup_app_l_Some, Hj'.
    + intros ->. apply (Hlast (length pairs) v0 Hlt).
      by rewrite list_lookup_middle.
Qed.

(** Every key of the dict is the key of some pair. *)
Lemma py_dict_lookup_Some pairs c v :
  py_dict pairs !! c = Some v → ∃ j, pairs !! j = Some (c, v).
Proof.
  induction pairs as [|[k v0] pairs IH] using rev_ind; [done |].
  rewrite py_dict_snoc. destruct (decide (k = c)) as [-> | Hne].
  - rewrite lookup_insert_eq. intros [= ->]. exists (length pairs).
    by rewrite list_lookup_middle.
  - rewrite lookup_insert_ne by done. intros [j Hj]%IH.
    exists j. by apply lookup_app_l_Some.
Qed.

Lemma lookup_zip_Some (cols : list string) (row : list value) j c v :
  zip cols row !! j = Some (c, v) ↔ cols !! j = Some c ∧ row !! j = Some v.
Proof.
  rewrite lookup_zip_with_Some. split.
  - by intros (c' & v' & [= -> ->] & ? & ?).
  - intros [? ?]. by exists c, v.
Qed.

(** What [dict(zip(columns, row))] holds. *)
Lemma record_spec (cols : list string) (row : list value) :
  let r := py_dict (zip cols row) in
  (∀ j c v,
     cols !! j = Some c → row !! j = Some v →
     (∀ j', j < j' < length row → cols !! j' ≠ Some c) →
     r !! c = Some v)
  ∧ (∀ c, is_Some (r !! c) → ∃ j, j < length row ∧ cols !! j = Some c)
  ∧ (NoDup cols →
     ∀ j c, cols !! j = Some c → j < length row → r !! c = row !! j).
Proof.
  intros r. split_and!.
  - intros j c v Hc Hv Hlast. apply (py_dict_lookup_last _ j).
    + by apply lookup_zip_Some.
    + intros j' v' Hjj' [Hc' Hv']%lookup_zip_Some.
      apply (Hlast j'); [| done]. apply lookup_lt_Some in Hv'. lia.
  - intros c [v (j & [Hc Hv]%lookup_zip_Some)%py_dict_lookup_Some].
    exists j. split; [| done]. by apply lookup_lt_Some in Hv.
  - intros Hnd j c Hc Hj.
    destruct (lookup_lt_is_Some_2 row j Hj) as [v Hv]. rewrite Hv.
    apply (py_dict_lookup_last _ j).
    + by apply lookup_zip_Some.
    + intros j' v' Hjj' [Hc' Hv']%lookup_zip_Some.
      pose proof (NoDup_lookup _ _ _ _ Hnd Hc Hc'). lia.
Qed.

(** C6 (amended). When the query-execution request is answered with a
    body holding [columns] and [rows], [query] returns one record per
    row, in the order of the rows; the record of a row is
    [dict(zip(columns, row))]: under a column name it holds the cell at
    the last position, within the length of the row, at which that name
    occurs in [columns], and it has no other key.  When the column
    names are distinct this is the cell at the same position. *)
Theorem query_zips_rows fuel sql x w l w1 i w2 srv' cols rs :
  login api w = (Return l, w1) →
  dataset_id api fuel x (with_accept l w1) = (Return i, w2) →
  query_execute api (remote w2) (py_str i) (heap w2 !!! l) (sql_or_default sql)
    = (srv', Json (mkQueryBody (Some cols) (Some rs))) →
  ∃ data w',
    query api fuel sql x w = (Return data, w')
    ∧ length data = length rs
    ∧ ∀ k row, rs !! k = Some row →
        ∃ r, data !! k = Some r
             ∧ r = py_dict (zip cols row)
             ∧ (∀ j c v,
                  cols !! j = Some c → row !! j = Some v →
                  (∀ j', j < j' < length row → cols !! j' ≠ Some c) →
                  r !! c = Some v)
             ∧ (∀ c, is_Some (r !! c) →
                     ∃ j, j < length row ∧ cols !! j = Some c)
             ∧ (NoDup cols →
                ∀ j c, cols !! j = Some c → j < length row →
                       r !! c = row !! j).
Proof.
  intros Hl Hid Hq. rewrite query_unfold, Hl, Hid. cbn zeta. rewrite Hq. cbn.
  eexists _, _. split; [done |]. split; [by rewrite length_fmap |].
  intros k row Hk. exists (py_dict (zip cols row)).
  split; [by rewrite list_lookup_fmap, Hk |]. split; [done |].
  apply record_spec.
Qed.

(** *** The Accept entry *)

Lemma both_keys_cached w : both_keys w → cached_header w = true.
Proof.
  intros (h & Hh & _ & Ha). unfold cached_header.
  rewrite (lookup_total_correct _ _ _ Hh). by eapply truthy_dict_lookup.
Qed.

(** After a successful [login] inside it, [query] ends with the store
    it had right after the assignment to [header['Accept']]. *)
Lemma query_header fuel sql x w l w1 o w' :
  login api w = (Return l, w1) →
  query api fuel sql x w = (o, w') →
  heap w' = heap (with_accept l w1) ∧ _login (self w') = l.
Proof.
  intros Hl. pose proof (login_return _ _ _ Hl) as [Hlog Hc].
  rewrite query_unfold, Hl.
  destruct (dataset_id api fuel x (with_accept l w1)) as [[i| |] w2] eqn:Hd;
    apply dataset_id_header in Hd as [Hh Hs];
    try (by apply with_accept_cached); cbn in Hs; rewrite Hlog in Hs;
    [| by intros [= <- <-] ..].
  cbn zeta.
  destruct (query_execute _ _ _ _ _) as [srv' [|body]];
    [by intros [= <- <-] |].
  destruct (columns body); [destruct (rows body) |]; by intros [= <- <-].
Qed.

Lemma with_accept_both_keys l w :
  _login (self w) = l →
  is_Some ((heap w !!! l) !! "Authorization") →
  both_keys (with_accept l w).
Proof.
  intros <- Hauth. eexists. unfold with_accept. cbn.
  split; [apply lookup_insert_eq |].
  split; [by rewrite lookup_insert_ne | apply lookup_insert_eq].
Qed.

Lemma login_authorized w l w1 :
  authorized w → login api w = (Return l, w1) →
  is_Some ((heap w1 !!! l) !! "Authorization").
Proof.
  intros Hauth. destruct (cached_header w) eqn:Hc.
  - rewrite login_cached by done. intros [= <- <-]. by apply Hauth.
  - unfold login. run. unfold cached_header in Hc. rewrite Hc.
    destruct (oauth_token _ _ _ _) as [srv' [|body]]; [done |].
    destruct (body !! "access_token"); [| done].
    intros [= <- <-]. cbn. rewrite lookup_total_insert_eq.
    by rewrite lookup_singleton_eq.
Qed.

(** Once both keys are in the cached header, no call removes them or
    replaces the dict. *)
Lemma perform_both_keys c w :
  both_keys w →
  both_keys (perform api c w)
  ∧ _login (self (perform api c w)) = _login (self w).
Proof.
  intros Hb. pose proof (both_keys_cached _ Hb) as Hc.
  destruct c as [|fuel|fuel x|fuel sql x]; cbn [perform].
  - by rewrite login_cached.
  - destruct (tables api fuel w) as [o w'] eqn:Ht.
    apply tables_header in Ht as [Hh Hs]; [| done].
    unfold both_keys. cbn. by rewrite Hh, Hs.
  - destruct (find_table api fuel x w) as [o w'] eqn:Ht.
    apply find_table_header in Ht as [Hh Hs]; [| done].
    unfold both_keys. cbn. by rewrite Hh, Hs.
  - destruct (query api fuel sql x w) as [o w'] eqn:Hq.
    apply (query_header _ _ _ _ (_login (self w)) w) in Hq as [Hh Hs];
      [| by apply login_cached].
    destruct Hb as (h & Hl & Hauth & Hacc).
    assert (both_keys (with_accept (_login (self w)) w)) as (h' & ? & ? & ?).
    { apply with_accept_both_keys; [done |].
      by rewrite (lookup_total_correct _ _ _ Hl). }
    cbn. split; [| done]. exists h'. by rewrite Hh, Hs.
Qed.

Lemma perform_all_both_keys cs w :
  both_keys w →
  both_keys (perform_all api cs w)
  ∧ _login (self (perform_all api cs w)) = _login (self w).
Proof.
  revert w. induction cs as [|c cs IH]; intros w Hb; [done |].
  change (perform_all api (c :: cs) w)
    with (perform_all api cs (perform api c w)).
  destruct (perform_both_keys c w Hb) as [Hb' Hs'].
  destruct (IH _ Hb') as [Hb'' Hs'']. split; [done |]. by rewrite Hs''.
Qed.

(** *** Every cached header has the Authorization key *)

Lemma authorized_same_header w w' :
  heap w' = heap w → _login (self w') = _login (self w) →
  authorized w → authorized w'.
Proof. unfold authorized, cached_header. by intros -> ->. Qed.

Lemma both_keys_authorized w : both_keys w → authorized w.
Proof.
  intros (h & Hh & Hauth & _) _. by rewrite (lookup_total_correct _ _ _ Hh).
Qed.

Lemma login_preserves_authorized w : authorized w → authorized (login api w).2.
Proof.
  intros Hauth. destruct (cached_header w) eqn:Hc.
  { by rewrite login_cached. }
  destruct (login api w) as [[l| |] w1] eqn:Hl; cbn [snd].
  - pose proof (login_return _ _ _ Hl) as [Hlog _].
    intros _. rewrite Hlog. by eapply login_authorized.
  - apply login_raise in Hl as (Hs & Hh & _).
    apply (authorized_same_header w); [done | by rewrite Hs | done].
  - by pose proof (login_total w) as Hd; rewrite Hl in Hd.
Qed.

(** The header that [tables] leaves is the one [login] leaves. *)
Lemma tables_header_of_login fuel w :
  let w' := (tables api fuel w).2 in
  (heap w' = heap w ∧ _login (self w') = _login (self w))
  ∨ (heap w' = heap (login api w).2
     ∧ _login (self w') = _login (self (login api w).2)).
Proof.
  destruct (cached_tables w) eqn:Hc; cbn zeta.
  { left. by rewrite tables_cached. }
  right. rewrite tables_uncached by done.
  destruct (login api w) as [[l| |] w1]; [| done ..].
  destruct (fetch api fuel l 0 [] w1) as [[ds| |] w2] eqn:Hf;
    apply fetch_frame in Hf as [Hs Hh]; cbn; by rewrite ?Hs.
Qed.

Lemma tables_preserves_authorized fuel w :
  authorized w → authorized (tables api fuel w).2.
Proof.
  intros Hauth. destruct (tables_header_of_login fuel w) as [[H1 H2]|[H1 H2]].
  - by apply (authorized_same_header w).
  - apply (authorized_same_header (login api w).2); try done.
    by apply login_preserves_authorized.
Qed.

Lemma perform_authorized c w : authorized w → authorized (perform api c w).
Proof.
  intros Hauth. destruct c as [|fuel|fuel x|fuel sql x]; cbn [perform].
  - by apply login_preserves_authorized.
  - by apply tables_preserves_authorized.
  - rewrite find_table_unfold.
    pose proof (tables_preserves_authorized fuel w Hauth) as Ht.
    destruct (tables api fuel w) as [[catalog| |] w1]; [| done ..].
    destruct (scan x catalog w1) as [o w2] eqn:Hs.
    apply scan_frame in Hs as (Hh & _ & _ & Hl & _).
    by apply (authorized_same_header w1).
  - destruct (login api w) as [[l| |] w1] eqn:Hl.
    + destruct (query api fuel sql x w) as [o w'] eqn:Hq.
      pose proof (login_return _ _ _ Hl) as [Hlog _].
      pose proof (login_authorized _ _ _ Hauth Hl) as Hkey.
      pose proof (query_header _ _ _ _ _ _ _ _ Hl Hq) as [Hh Hs].
      cbn [snd]. apply (authorized_same_header (with_accept l w1));
        [exact Hh | by rewrite Hs | ].
      by apply both_keys_authorized, with_accept_both_keys.
    + pose proof (login_preserves_authorized w Hauth) as H.
      rewrite query_unfold. by rewrite Hl in *.
    + by pose proof (login_total w) as Hd; rewrite Hl in Hd.
Qed.

(** Every state that calls can reach from a new connection is
    [authorized]. *)
Lemma authorized_reachable cid sec srv cs :
  authorized (perform_all api cs (new_connection cid sec srv)).
Proof.
  assert (authorized (new_connection cid sec srv)) as H0.
  { unfold authorized, cached_header. cbn.
    rewrite lookup_total_singleton_eq. by rewrite truthy_dict_empty. }
  revert H0. generalize (new_connection cid sec srv).
  induction cs as [|c cs IH]; intros w Hw; [done |].
  apply IH. by apply perform_authorized.
Qed.

(** C9. [query] assigns [header['Accept']] on the very dict that
    [_login] refers to.  So once a [query] call got past
    authentication, whatever its outcome, that dict is the header
    [login] returned plus the Accept entry, and after any further calls
    [login] still returns this same dict, holding both the
    [Authorization] key and [Accept: application/json]. *)
Theorem query_leaves_accept_in_cached_header fuel sql x w l w1 o w' :
  authorized w →
  login api w = (Return l, w1) →
  query api fuel sql x w = (o, w') →
  _login (self w') = l
  ∧ heap w' !! l = Some (<["Accept" := "application/json"]> (heap w1 !!! l))
  ∧ ∀ cs,
      let w'' := perform_all api cs w' in
      ∃ h, login api w'' = (Return l, w'')
           ∧ heap w'' !! l = Some h
           ∧ is_Some (h !! "Authorization")
           ∧ h !! "Accept" = Some "application/json".
Proof.
  intros Hauth Hl Hq.
  pose proof (login_return _ _ _ Hl) as [Hlog _].
  pose proof (login_authorized _ _ _ Hauth Hl) as Hkey.
  pose proof (query_header _ _ _ _ _ _ _ _ Hl Hq) as [Hh Hs].
  assert (both_keys w') as Hb.
  { destruct (with_accept_both_keys l w1 Hlog Hkey) as (h & H1 & H2 & H3).
    change (_login (self (with_accept l w1))) with (_login (self w1)) in H1.
    rewrite Hlog in H1. exists h. by rewrite Hh, Hs. }
  split; [done |]. split.
  { rewrite Hh. unfold with_accept. cbn. apply lookup_insert_eq. }
  intros cs w''.
  destruct (perform_all_both_keys cs w' Hb) as [Hb'' Hs''].
  fold w'' in Hb'', Hs''. rewrite Hs in Hs''.
  pose proof (both_keys_cached _ Hb'') as Hc''.
  destruct Hb'' as (h & H1 & H2 & H3). exists h.
  rewrite login_cached by done. by rewrite Hs'' in *.
Qed.

Lemma dataset_id_unmatched fuel x w catalog w2 :
  _last_id_or_name (self w) = LastStr "" →
  x ≠ "" →
  tables api fuel w = (Return catalog, w2) →
  Forall (λ t, well_formed t = true ∧ matches x t = false) catalog →
  dataset_id api fuel x w = (Raise TypeError, w2).
Proof.
  intros Hlast Hx Ht Hmiss.
  pose proof (tables_frame _ _ _ _ Ht) as (Hlast2 & _).
  rewrite dataset_id_unfold, Hlast. cbn [truthy_last].
  replace (truthy_str "") with false by done.
  replace (truthy_str x) with true
    by (unfold truthy_str; by rewrite bool_decide_eq_false_2).
  cbn [negb andb]. rewrite find_table_unfold, Ht.
  rewrite scan_miss by done. by rewrite Hlast2, Hlast.
Qed.

(** C10. On a connection whose [_last_id_or_name] is still the initial
    [""], [query] with a non-empty [id_or_name] that no catalog entry
    matches raises a [TypeError] (the subscript ["id"] on the str), not
    the usage error.  It does so in the state reached by [login], the
    Accept assignment and [tables]: the only requests issued are theirs,
    none is a query-execution request, and [_last_id_or_name] is still
    [""]. *)
Theorem query_unmatched_raises_type_error fuel sql x w l w1 catalog w2 :
  _last_id_or_name (self w) = LastStr "" →
  x ≠ "" →
  login api w = (Return l, w1) →
  tables api fuel (with_accept l w1) = (Return catalog, w2) →
  Forall (λ t, well_formed t = true ∧ matches x t = false) catalog →
  query api fuel sql x w = (Raise TypeError, w2)
  ∧ _last_id_or_name (self w2) = LastStr ""
  ∧ ∃ t, trace w2 = trace w ++ t ∧ Forall (λ r, is_post r = false) t.
Proof.
  intros Hlast Hx Hl Ht Hmiss.
  pose proof (login_frame _ _ _ Hl) as (_ & Hlast1 & _).
  pose proof (tables_frame _ _ _ _ Ht) as (Hlast2 & _).
  assert (_last_id_or_name (self w2) = LastStr "") as Hlast'.
  { rewrite Hlast2. cbn. by rewrite Hlast1. }
  split_and!; [| done |].
  - rewrite query_unfold, Hl.
    rewrite (dataset_id_unmatched fuel x _ catalog w2); try done.
    cbn. by rewrite Hlast1.
  - apply login_trace in Hl as (t1 & Ht1 & Hp1).
    apply tables_trace in Ht as (t2 & Ht2 & Hp2). cbn in Ht2.
    exists (t1 ++ t2). rewrite Ht2, Ht1, (assoc_L (++)).
    split; [done | by apply Forall_app].
Qed.

End Properties.

(** * The statements at concrete inputs *)

Example listing_url :
  request_url (GetDatasets 50 limit ∅)
  = "https://api.domo.com/v1/datasets?offset=50&limit=50".
Proof. vm_compute; reflexivity. Qed.

Example query_url_of_id :
  request_url (PostQuery "A1" ∅ default_sql)
  = "https://api.domo.com/v1/datasets/query/execute/A1?includeHeaders=true".
Proof. vm_compute; reflexivity. Qed.

Lemma paged_serves catalog body : serves_catalog (paged catalog body) catalog.
Proof. by intros s offset lim h. Qed.

(** C1: over 120 datasets the code issues 4 listing requests, not 3. *)
Lemma tables_120_issues_four_requests :
  length (catalog_of_size 120) = 120
  ∧ listing_requests (trace (tables api_120 10 fresh_world).2) = 4
  ∧ ¬ listing_requests (trace (tables api_120 10 fresh_world).2) = 3.
Proof.
  assert (listing_requests (trace (tables api_120 10 fresh_world).2) = 4) as H
    by (vm_compute; reflexivity).
  split; [vm_compute; reflexivity |]. split; [exact H |].
  rewrite H. discriminate.
Qed.

Lemma tables_pagination_witness :
  (∃ w', tables api_120 4 fresh_world = (Return (catalog_of_size 120), w')
         ∧ listing_requests (trace w') = 4)
  ∧ (∃ w', tables api_0 1 fresh_world = (Return [], w')
           ∧ listing_requests (trace w') = 1).
Proof.
  split.
  - destruct (tables_pagination api_120 (catalog_of_size 120) fresh_world 1
                (login api_120 fresh_world).2) as [H _].
    + apply paged_serves.
    + reflexivity.
    + vm_compute; reflexivity.
    + destruct (H eq_refl 4 (le_n 4)) as (w' & H1 & _ & _ & H4).
      exists w'. split; [exact H1 | exact H4].
  - destruct (tables_pagination api_0 [] fresh_world 1
                (login api_0 fresh_world).2) as [_ H].
    + apply paged_serves.
    + reflexivity.
    + vm_compute; reflexivity.
    + destruct (H eq_refl 1 (le_n 1)) as (w' & H1 & _ & _ & H4).
      exists w'. split; [exact H1 | exact H4].
Defined.

(** C2: on a fresh connection the token request precedes the usage
    error. *)
Lemma query_usage_error_after_token_request :
  ¬ ∃ w', query sales_api 5 "" "" fresh_world = (Raise usage_error, w')
          ∧ trace w' = [].
Proof.
  intros (w' & Hq & Ht).
  assert (trace (query sales_api 5 "" "" fresh_world).2
          = [GetToken "client" "s3cret"]) as H by (vm_compute; reflexivity).
  rewrite Hq in H. cbn in H. by rewrite Ht in H.
Qed.

(** C3: an empty catalog is fetched again at the next access, and the
    second access returns what the service has by then. *)
Theorem tables_empty_catalog_is_fetched_again :
  ∃ w1 w2,
    tables growing 5 fresh_world = (Return [], w1)
    ∧ listing_requests (trace w1) = 1
    ∧ tables growing 5 w1 = (Return [numbered 0], w2)
    ∧ listing_requests (trace w2) = 3.
Proof.
  exists (tables growing 5 fresh_world).2.
  exists (tables growing 5 (tables growing 5 fresh_world).2).2.
  split_and!; vm_compute; reflexivity.
Qed.

Lemma find_table_first_match_witness :
  find_table sales_api 5 "A2" fresh_world
    = (Return (Some (dataset "A2" "Inventory")),
       resolved (dataset "A2" "Inventory") (tables sales_api 5 fresh_world).2)
  ∧ ∃ w', find_table sales_api 5 "missing" fresh_world = (Return None, w')
          ∧ _last_id_or_name (self w') = LastStr "".
Proof.
  split.
  - destruct (find_table_first_match sales_api 5 "A2" fresh_world
                sales_catalog (tables sales_api 5 fresh_world).2) as [H _].
    + vm_compute; reflexivity.
    + destruct (H [dataset "A1" "Sales"] (dataset "A2" "Inventory") [])
        as [H1 _].
      * reflexivity.
      * by repeat constructor.
      * right. split; [by eexists | reflexivity].
      * exact H1.
  - destruct (find_table_first_match sales_api 5 "missing" fresh_world
                sales_catalog (tables sales_api 5 fresh_world).2) as [_ H].
    + vm_compute; reflexivity.
    + apply H. by repeat constructor.
Defined.

(** The example of the specification: both the name and the id of the
    first entry resolve to it. *)
Example find_table_sales :
  (find_table sales_api 5 "Sales" fresh_world).1
    = Return (Some (dataset "A1" "Sales"))
  ∧ (find_table sales_api 5 "A1" fresh_world).1
    = Return (Some (dataset "A1" "Sales"))
  ∧ _last_id_or_name (self sales_resolved) = LastTable (dataset "A1" "Sales").
Proof. split_and!; vm_compute; reflexivity. Qed.

Lemma query_uses_last_resolved_witness :
  ∃ o w',
    query sales_api 5 "" "OTHER_ID" sales_resolved = (o, w')
    ∧ trace w' =
        trace sales_resolved
        ++ [PostQuery "A1"
              {[ "Authorization" := "bearer t0k3n";
                 "Accept" := "application/json" ]}
              "select * from table"]
    ∧ _last_id_or_name (self w') = LastTable (dataset "A1" "Sales").
Proof.
  apply (query_uses_last_resolved sales_api 5 "" "OTHER_ID" sales_resolved
           (dataset "A1" "Sales") (VStr "A1") 1 sales_resolved).
  - vm_compute; reflexivity.
  - reflexivity.
  - discriminate.
  - vm_compute; reflexivity.
Defined.

(** C6: with two columns of the same name the record holds the later
    cell under that name, not the cell at the position of the first. *)
Lemma query_duplicate_column_names :
  ∃ r, (query twice_a_api 5 "" "A1" fresh_world).1 = Return [r]
       ∧ ¬ (∀ j c, ["a"; "a"] !! j = Some c →
                   r !! c = [VInt 1; VInt 2] !! j).
Proof.
  exists {[ "a" := VInt 2 ]}. split; [vm_compute; reflexivity |].
  intros H. specialize (H 0 "a" eq_refl). vm_compute in H. discriminate.
Qed.

Lemma query_zips_rows_witness :
  ∃ data w',
    query sales_api 5 "" "A1" fresh_world = (Return data, w')
    ∧ data = [ {[ "id" := VInt 1; "val" := VStr "x" ]};
               {[ "id" := VInt 2; "val" := VStr "y" ]} ].
Proof.
  destruct (query_zips_rows sales_api 5 "" "A1" fresh_world 1
              (login sales_api fresh_world).2 (VStr "A1")
              (dataset_id sales_api 5 "A1"
                 (with_accept 1 (login sales_api fresh_world).2)).2
              4 ["id"; "val"] [[VInt 1; VStr "x"]; [VInt 2; VStr "y"]])
    as (data & w' & Hq & _ & _).
  - vm_compute; reflexivity.
  - vm_compute; reflexivity.
  - vm_compute; reflexivity.
  - exists data, w'. split; [exact Hq |].
    assert ((query sales_api 5 "" "A1" fresh_world).1
            = Return [ {[ "id" := VInt 1; "val" := VStr "x" ]};
                       {[ "id" := VInt 2; "val" := VStr "y" ]} ]) as H
      by (vm_compute; reflexivity).
    rewrite Hq in H. cbn in H. by injection H.
Defined.

Lemma login_twice_one_token_request_witness :
  cached_header fresh_world = false
  ∧ ∃ l w1,
      login sales_api fresh_world = (Return l, w1)
      ∧ trace w1 = trace fresh_world ++ [GetToken "client" "s3cret"]
      ∧ _login (self w1) = l
      ∧ heap w1 !! l = Some {[ "Authorization" := "bearer t0k3n" ]}
      ∧ login sales_api w1 = (Return l, w1).
Proof.
  split; [reflexivity |].
  apply (login_twice_one_token_request sales_api fresh_world 1
           {[ "access_token" := VStr "t0k3n" ]} (VStr "t0k3n")).
  - reflexivity.
  - reflexivity.
  - reflexivity.
Defined.



Lemma query_leaves_accept_in_cached_header_witness :
  ∃ h, login sales_api (query sales_api 5 "" "" fresh_world).2
         = (Return 1, (query sales_api 5 "" "" fresh_world).2)
       ∧ heap (query sales_api 5 "" "" fresh_world).2 !! 1 = Some h
       ∧ is_Some (h !! "Authorization")
       ∧ h !! "Accept" = Some "application/json".
Proof.
  destruct (query_leaves_accept_in_cached_header sales_api 5 "" ""
              fresh_world 1 (login sales_api fresh_world).2
              (query sales_api 5 "" "" fresh_world).1
              (query sales_api 5 "" "" fresh_world).2) as (_ & _ & H).
  - intros Hc. vm_compute in Hc. discriminate.
  - vm_compute; reflexivity.
  - vm_compute; reflexivity.
  - exact (H []).
Defined.

Lemma query_unmatched_raises_type_error_witness :
  (query sales_api 5 "" "missing" fresh_world).1 = Raise TypeError
  ∧ listing_requests (trace (query sales_api 5 "" "missing" fresh_world).2) = 2.
Proof.
  destruct (query_unmatched_raises_type_error sales_api 5 "" "missing"
              fresh_world 1 (login sales_api fresh_world).2 sales_catalog
              (tables sales_api 5
                 (with_accept 1 (login sales_api fresh_world).2)).2)
    as (Hq & _ & _).
  - reflexivity.
  - discriminate.
  - vm_compute; reflexivity.
  - vm_compute; reflexivity.
  - by repeat constructor.
  - rewrite Hq. split; [reflexivity | vm_compute; reflexivity].
Defined.

(** * Further properties of the four operations *)

Section Behaviour.

Context {Srv : Type} (api : Endpoints Srv).
Implicit Types (w : World Srv) (l : loc) (fuel : nat).

Ltac step :=
  unfold bind, get_self, put_self, deref, alloc, setitem, getitem, send,
         ret, raise, diverge in *; cbn in *.

(** *** Shapes of the traces *)

(** Without a cached header, [login] sends the token request. *)
Lemma login_uncached_trace w :
  cached_header w = false →
  trace (login api w).2
  = trace w ++ [GetToken (client_id (self w)) (secret (self w))].
Proof.
  unfold cached_header, login. step. intros ->.
  destruct (oauth_token _ _ _ _) as [srv' [|body]]; [done |].
  by destruct (body !! "access_token").
Qed.

(** The loop sends page requests, at most one per unit of fuel. *)
Lemma fetch_shape fuel l offset acc w o w' :
  fetch api fuel l offset acc w = (o, w') →
  ∃ n, n ≤ fuel
       ∧ trace w' = trace w ++ page_requests (heap w !!! l) offset n.
Proof.
  revert offset acc w. induction fuel as [|fuel IH]; intros offset acc w.
  { cbn. step. intros [= <- <-]. exists 0. by rewrite app_nil_r. }
  cbn [fetch]. step.
  destruct (datasets_page _ _ _ _ _) as [srv' [|chunk]].
  { intros [= <- <-]. exists 1. split; [lia |].
    by rewrite page_requests_S. }
  destruct chunk as [|t chunk]; cbn.
  { intros [= <- <-]. exists 1. split; [lia |].
    by rewrite page_requests_S. }
  intros (n & Hn & ->)%IH. cbn. exists (S n). split; [lia |].
  by rewrite page_requests_S, <- (assoc_L (++)).
Qed.

(** [tables] returns what it leaves in [_tables]. *)
Lemma tables_returns_attribute fuel w catalog w1 :
  tables api fuel w = (Return catalog, w1) → _tables (self w1) = catalog.
Proof.
  destruct (cached_tables w) eqn:Hc.
  - rewrite tables_cached by done. by intros [= <- <-].
  - rewrite tables_uncached by done.
    destruct (login api w) as [[l| |] w0]; [| done ..].
    destruct (fetch api fuel l 0 [] w0) as [[ds| |] w2]; [| done ..].
    by intros [= <- <-].
Qed.

(** With a cached header, [tables] sends page requests only, all with
    the cached header. *)
Lemma tables_shape fuel w o w' :
  cached_header w = true →
  tables api fuel w = (o, w') →
  ∃ n, trace w' = trace w ++ page_requests (heap w !!! _login (self w)) 0 n.
Proof.
  intros Hh. destruct (cached_tables w) eqn:Hc.
  { rewrite tables_cached by done. intros [= <- <-].
    exists 0. by rewrite app_nil_r. }
  rewrite tables_uncached, login_cached by done.
  destruct (fetch api fuel _ 0 [] w) as [[ds| |] w2] eqn:Hf;
    apply fetch_shape in Hf as (n & _ & Hn); intros [= <- <-]; by exists n.
Qed.

Lemma dataset_id_shape fuel x w o w' :
  cached_header w = true →
  dataset_id api fuel x w = (o, w') →
  ∃ n, trace w' = trace w ++ page_requests (heap w !!! _login (self w)) 0 n.
Proof.
  intros Hh. rewrite dataset_id_unfold.
  destruct (truthy_str x && truthy_last _).
  { intros ->%last_id_frame. exists 0. by rewrite app_nil_r. }
  destruct (negb (truthy_str x) && negb _).
  { intros [= <- <-]. exists 0. by rewrite app_nil_r. }
  rewrite find_table_unfold.
  destruct (tables api fuel w) as [[catalog| |] w1] eqn:Ht;
    apply tables_shape in Ht as (n & Hn); try done;
    [| intros [= <- <-]; by exists n ..].
  destruct (scan x catalog w1) as [[r| |] w2] eqn:Hs;
    apply scan_frame in Hs as (_ & _ & Htr & _);
    [| intros [= <- <-]; exists n; by rewrite Htr ..].
  intros ->%last_id_frame. exists n. by rewrite Htr.
Qed.

(** What a [query] that got past authentication sends: page requests
    (when it has to resolve), then at most one query-execution request,
    all with the header extended by the Accept entry. *)
Lemma query_shape fuel sql x w l w1 o w' :
  login api w = (Return l, w1) →
  query api fuel sql x w = (o, w') →
  let h := <["Accept" := "application/json"]> (heap w1 !!! l) in
  ∃ n posts,
    trace w' = trace w1 ++ page_requests h 0 n ++ posts
    ∧ (posts = [] ∨ ∃ id, posts = [PostQuery id h (sql_or_default sql)])
    ∧ (∀ data, o = Return data → posts ≠ []).
Proof.
  intros Hl Hq h. pose proof (login_return _ _ _ _ Hl) as [Hlog Hc].
  rewrite query_unfold, Hl in Hq.
  assert (cached_header (with_accept l w1) = true) as Hca
    by by apply with_accept_cached.
  destruct (dataset_id api fuel x (with_accept l w1)) as [[i| |] w2] eqn:Hd.
  - pose proof (dataset_id_header _ _ _ _ _ _ Hca Hd) as [Hh _].
    apply (dataset_id_shape _ _ _ _ _ Hca) in Hd as (n & Hn).
    change (_login (self (with_accept l w1))) with (_login (self w1)) in Hn.
    rewrite Hlog, with_accept_lookup in Hn.
    change (trace (with_accept l w1)) with (trace w1) in Hn.
    cbn zeta in Hq.
    assert (heap w2 !!! l = h) as Hl2.
    { rewrite Hh. apply with_accept_lookup. }
    rewrite Hl2 in Hq.
    exists n, [PostQuery (py_str i) h (sql_or_default sql)].
    destruct (query_execute _ _ _ _ _) as [srv' [|body]];
      [| destruct (columns body); [destruct (rows body) |]];
      injection Hq as <- <-; cbn [trace]; rewrite Hn, <- (assoc_L (++));
      (split; [done |]; split; [right; by eexists | done]).
  - apply (dataset_id_shape _ _ _ _ _ Hca) in Hd as (n & Hn).
    change (_login (self (with_accept l w1))) with (_login (self w1)) in Hn.
    rewrite Hlog, with_accept_lookup in Hn.
    change (trace (with_accept l w1)) with (trace w1) in Hn.
    injection Hq as <- <-. exists n, []. rewrite app_nil_r.
    split; [done |]. split; [by left | done].
  - apply (dataset_id_shape _ _ _ _ _ Hca) in Hd as (n & Hn).
    change (_login (self (with_accept l w1))) with (_login (self w1)) in Hn.
    rewrite Hlog, with_accept_lookup in Hn.
    change (trace (with_accept l w1)) with (trace w1) in Hn.
    injection Hq as <- <-. exists n, []. rewrite app_nil_r.
    split; [done |]. split; [by left | done].
Qed.

(** *** login *)

(** X1. A failed [login] caches nothing: the object and the store are
    as before, one token request has been sent, and the next [login]
    sends the token request again. *)
Theorem login_failure_is_not_cached w e w1 :
  login api w = (Raise e, w1) →
  self w1 = self w ∧ heap w1 = heap w
  ∧ trace w1 = trace w ++ [GetToken (client_id (self w)) (secret (self w))]
  ∧ trace (login api w1).2
    = trace w1 ++ [GetToken (client_id (self w)) (secret (self w))].
Proof.
  intros (Hs & Hh & Hc & Ht)%login_raise. split_and!; try done.
  rewrite login_uncached_trace; [by rewrite Hs |].
  unfold cached_header in *. by rewrite Hs, Hh.
Qed.

(** *** tables *)

Lemma collected_S pages k :
  collected pages (S k)
  = pages 0 ++ concat ((λ i, pages (limit + limit * i)) <$> seq 0 k).
Proof.
  unfold collected. change (seq 0 (S k)) with (0 :: seq 1 k).
  rewrite fmap_cons, concat_cons, Nat.mul_0_r. f_equal. f_equal.
  rewrite <- fmap_S_seq, <- list_fmap_compose.
  apply list_fmap_ext. intros _ i _. unfold compose. f_equal. lia.
Qed.

(** One pass over a service that answers by offset: the loop asks for
    offsets [offset], [offset + 50], ... until a page is empty and
    appends the pages as they come. *)
Lemma fetch_collects pages :
  answers_by_offset api pages →
  ∀ fuel k l offset acc w,
    (∀ i, i < k → pages (offset + limit * i) ≠ []) →
    pages (offset + limit * k) = [] →
    k < fuel →
    ∃ srv',
      fetch api fuel l offset acc w =
        (Return (acc ++ collected (λ j, pages (offset + j)) k),
         mkWorld (self w) (heap w) srv'
                 (trace w ++ page_requests (heap w !!! l) offset (S k))).
Proof.
  intros Hsrv. induction fuel as [|fuel IH];
    intros k l offset acc w Hne He Hk; [lia |].
  cbn [fetch]. step.
  pose proof (Hsrv (remote w) offset limit (heap w !!! l)) as Hp.
  destruct (datasets_page _ _ _ _ _) as [srv' resp]. cbn in Hp. subst resp.
  destruct k as [|k].
  - rewrite Nat.mul_0_r, Nat.add_0_r in He. rewrite He. cbn.
    exists srv'. unfold collected. cbn. rewrite app_nil_r.
    by rewrite (page_requests_S _ offset 0).
  - pose proof (Hne 0 ltac:(lia)) as H0.
    rewrite Nat.mul_0_r, Nat.add_0_r in H0.
    destruct (pages offset) as [|t chunk] eqn:E; [done |]. cbn.
    destruct (IH k l (offset + limit) (acc ++ t :: chunk)
                (mkWorld (self w) (heap w) srv'
                   (trace w ++ [GetDatasets offset limit (heap w !!! l)])))
      as [srv'' ->].
    + intros i Hi. replace (offset + limit + limit * i)
        with (offset + limit * S i) by lia. apply Hne. lia.
    + replace (offset + limit + limit * k)
        with (offset + limit * S k) by lia. done.
    + lia.
    + exists srv''. cbn. f_equal.
      * f_equal. rewrite collected_S, Nat.add_0_r, E, <- (assoc_L (++)).
        f_equal. f_equal. f_equal. unfold collected. f_equal.
        apply list_fmap_ext. intros _ i _. f_equal. lia.
      * f_equal. rewrite <- (assoc_L (++)). f_equal.
        by rewrite (page_requests_S _ offset (S k)).
Qed.

(** X3. [tables] asks for offsets 0, 50, 100, ... whatever the length
    of the pages it receives, stops at the first empty page and returns
    the pages appended in the order received: nothing is removed,
    reordered or asked for again. *)
Theorem tables_concatenates_pages pages fuel k w l w1 :
  answers_by_offset api pages →
  cached_tables w = false →
  login api w = (Return l, w1) →
  (∀ i, i < k → pages (limit * i) ≠ []) →
  pages (limit * k) = [] →
  k < fuel →
  ∃ w',
    tables api fuel w = (Return (collected pages k), w')
    ∧ _tables (self w') = collected pages k
    ∧ trace w' = trace w1 ++ page_requests (heap w1 !!! l) 0 (S k).
Proof.
  intros Hsrv Hc Hl Hne He Hk.
  destruct (fetch_collects pages Hsrv fuel k l 0 [] w1) as [srv' Hf];
    try done.
  rewrite tables_uncached, Hl, Hf by done. cbn. by eexists.
Qed.

(** The loop has no exit but the empty page. *)
Lemma fetch_endless :
  never_empty api →
  ∀ fuel l offset acc w,
    ∃ w', fetch api fuel l offset acc w = (Diverge, w')
          ∧ self w' = self w
          ∧ trace w' = trace w ++ page_requests (heap w !!! l) offset fuel.
Proof.
  intros Hsrv. induction fuel as [|fuel IH]; intros l offset acc w.
  { cbn. step. eexists. split_and!; try done. by rewrite app_nil_r. }
  cbn [fetch]. step.
  destruct (Hsrv (remote w) offset limit (heap w !!! l)) as (t & chunk & Hp).
  destruct (datasets_page _ _ _ _ _) as [srv' resp]. cbn in Hp. subst resp.
  cbn.
  destruct (IH l (offset + limit) (acc ++ t :: chunk)
              (mkWorld (self w) (heap w) srv'
                 (trace w ++ [GetDatasets offset limit (heap w !!! l)])))
    as (w' & -> & Hs & Ht).
  exists w'. split_and!; try done.
  rewrite Ht. cbn. by rewrite page_requests_S, <- (assoc_L (++)).
Qed.

(** X4. Against a service that never answers a listing request with an
    empty page, [tables] does not return: whatever the number of
    iterations allowed, the loop uses them all, sending one listing
    request in each, and no catalog is stored. *)
Theorem tables_never_returns fuel w l w1 :
  never_empty api →
  cached_tables w = false →
  login api w = (Return l, w1) →
  ∃ w',
    tables api fuel w = (Diverge, w')
    ∧ _tables (self w') = _tables (self w)
    ∧ listing_requests (trace w') = listing_requests (trace w) + fuel.
Proof.
  intros Hsrv Hc Hl.
  destruct (fetch_endless Hsrv fuel l 0 [] w1) as (w' & Hf & Hs & Ht).
  rewrite tables_uncached, Hl, Hf by done. exists w'.
  pose proof (login_frame _ _ _ _ Hl) as (Htab & _).
  split_and!; [done | by rewrite Hs |].
  rewrite Ht, listing_requests_app, listing_requests_page.
  by rewrite (login_listing _ _ _ _ Hl).
Qed.

(** X5. Over a catalog of any size served in pages of 50, [tables]
    returns and stores the whole catalog in order and sends one listing
    request per started page plus the final one that comes back empty. *)
Theorem tables_returns_whole_catalog catalog fuel w l w1 :
  serves_catalog api catalog →
  cached_tables w = false →
  login api w = (Return l, w1) →
  (length catalog + 49) / 50 < fuel →
  ∃ w',
    tables api fuel w = (Return catalog, w')
    ∧ _tables (self w') = catalog
    ∧ listing_requests (trace w')
      = listing_requests (trace w) + (length catalog + 49) / 50 + 1.
Proof.
  intros Hsrv Hc Hl Hfuel.
  pose proof (Nat.div_mod_eq (length catalog + 49) 50) as Hdm.
  pose proof (Nat.mod_upper_bound (length catalog + 49) 50) as Hub.
  set (k := (length catalog + 49) / 50) in *.
  destruct (tables_paged api catalog fuel k w l w1)
    as (w' & H1 & H2 & _ & H4); try done; unfold limit; try lia.
  exists w'. split_and!; try done. lia.
Qed.

(** *** What calls leave alone *)

Lemma scan_credentials x catalog w o w' :
  scan x catalog w = (o, w') →
  client_id (self w') = client_id (self w)
  ∧ secret (self w') = secret (self w).
Proof.
  induction catalog as [|t rest IH]; [by intros [= <- <-] |].
  rewrite scan_cons.
  destruct (t !! "name") as [n|]; [| by intros [= <- <-]].
  destruct (eq_str n x); [by intros [= <- <-] |].
  destruct (t !! "id") as [i|]; [| by intros [= <- <-]].
  destruct (eq_str i x); [by intros [= <- <-] | done].
Qed.

Lemma find_table_credentials fuel x w o w' :
  find_table api fuel x w = (o, w') →
  client_id (self w') = client_id (self w)
  ∧ secret (self w') = secret (self w).
Proof.
  rewrite find_table_unfold.
  destruct (tables api fuel w) as [[catalog| |] w1] eqn:Ht;
    apply tables_frame in Ht as (_ & H1 & H2);
    [| by intros [= <- <-] ..].
  intros [H3 H4]%scan_credentials. by rewrite H3, H4.
Qed.

Lemma dataset_id_credentials fuel x w o w' :
  dataset_id api fuel x w = (o, w') →
  client_id (self w') = client_id (self w)
  ∧ secret (self w') = secret (self w).
Proof.
  rewrite dataset_id_unfold.
  destruct (truthy_str x && truthy_last _).
  { by intros ->%last_id_frame. }
  destruct (negb (truthy_str x) && negb _); [by intros [= <- <-] |].
  destruct (find_table api fuel x w) as [[r| |] w1] eqn:Hf;
    apply find_table_credentials in Hf; [| by intros [= <- <-] ..].
  by intros ->%last_id_frame.
Qed.

Lemma query_credentials fuel sql x w o w' :
  query api fuel sql x w = (o, w') →
  client_id (self w') = client_id (self w)
  ∧ secret (self w') = secret (self w).
Proof.
  rewrite query_unfold.
  destruct (login api w) as [[l| |] w1] eqn:Hl;
    apply login_frame in Hl as (_ & _ & H1 & H2);
    [| by intros [= <- <-] ..].
  destruct (dataset_id api fuel x (with_accept l w1)) as [[i| |] w2] eqn:Hd;
    apply dataset_id_credentials in Hd as [H3 H4]; cbn in H3, H4;
    [| intros [= <- <-]; by rewrite H3, H4 ..].
  cbn zeta.
  destruct (query_execute _ _ _ _ _) as [srv' [|body]];
    [| destruct (columns body); [destruct (rows body) |]];
    intros [= <- <-]; cbn; by rewrite H3, H4.
Qed.

Lemma find_table_shape fuel x w o w' :
  cached_header w = true →
  find_table api fuel x w = (o, w') →
  ∃ n, trace w' = trace w ++ page_requests (heap w !!! _login (self w)) 0 n.
Proof.
  intros Hh. rewrite find_table_unfold.
  destruct (tables api fuel w) as [[catalog| |] w1] eqn:Ht;
    apply tables_shape in Ht as (n & Hn); try done;
    [| intros [= <- <-]; by exists n ..].
  intros (_ & _ & Htr & _)%scan_frame. exists n. by rewrite Htr.
Qed.

Lemma Forall_page_requests (P : Request → Prop) h offset n :
  (∀ o, P (GetDatasets o limit h)) → Forall P (page_requests h offset n).
Proof.
  intros HP. unfold page_requests. apply Forall_fmap, Forall_forall.
  intros i _. apply HP.
Qed.

(** With a cached header, a call keeps the dict that [_login] refers
    to, changes it at most by the Accept entry, and sends no token
    request: every request goes out with the cached header. *)
Lemma perform_cached_effect c w :
  cached_header w = true →
  let l := _login (self w) in
  let h := heap w !!! l in
  let w' := perform api c w in
  _login (self w') = l
  ∧ client_id (self w') = client_id (self w)
  ∧ secret (self w') = secret (self w)
  ∧ (heap w' !!! l = h ∨ heap w' !!! l = <["Accept" := "application/json"]> h)
  ∧ ∃ t, trace w' = trace w ++ t ∧ Forall (sent_with h) t.
Proof.
  intros Hc l h w'. subst w'.
  destruct c as [|fuel|fuel x|fuel sql x]; cbn [perform].
  - rewrite login_cached by done. cbn. split_and!; try done; [by left |].
    exists []. by rewrite app_nil_r.
  - destruct (tables api fuel w) as [o w'] eqn:Ht. cbn [snd].
    pose proof (tables_header _ _ _ _ _ Hc Ht) as [Hh Hs].
    pose proof (tables_frame _ _ _ _ _ Ht) as (_ & H1 & H2).
    apply tables_shape in Ht as (n & Hn); [| done].
    split_and!; try done; [left; by rewrite Hh |].
    eexists. split; [done |]. apply Forall_page_requests. by left.
  - destruct (find_table api fuel x w) as [o w'] eqn:Ht. cbn [snd].
    pose proof (find_table_header _ _ _ _ _ _ Hc Ht) as [Hh Hs].
    pose proof (find_table_credentials _ _ _ _ _ Ht) as [H1 H2].
    apply find_table_shape in Ht as (n & Hn); [| done].
    split_and!; try done; [left; by rewrite Hh |].
    eexists. split; [done |]. apply Forall_page_requests. by left.
  - destruct (query api fuel sql x w) as [o w'] eqn:Hq. cbn [snd].
    pose proof (login_cached api w Hc) as Hl. fold l in Hl.
    pose proof (query_header _ _ _ _ _ _ _ _ _ Hl Hq) as [Hh Hs].
    pose proof (query_credentials _ _ _ _ _ _ Hq) as [H1 H2].
    pose proof (query_shape _ _ _ _ _ _ _ _ Hl Hq) as (n & posts & Ht & Hp & _).
    split_and!; try done.
    { right. rewrite Hh. apply with_accept_lookup. }
    eexists. split; [exact Ht |]. apply Forall_app. split.
    + apply Forall_page_requests. by right.
    + destruct Hp as [-> | [id ->]]; by repeat constructor.
Qed.

Lemma sent_with_no_token h t :
  Forall (sent_with h) t → token_requests t = 0.
Proof.
  unfold token_requests. induction 1 as [|r t Hr _ IH]; [done |].
  destruct r; [done | ..]; by rewrite filter_cons_False.
Qed.

Lemma token_requests_app (t1 t2 : list Request) :
  token_requests (t1 ++ t2) = token_requests t1 + token_requests t2.
Proof. unfold token_requests. by rewrite filter_app, length_app. Qed.

(** X2. Once a header is cached, no call authenticates again: after
    any sequence of [login], [tables], [find_table] and [query] calls
    the trace holds no new token request, [_login] refers to the same
    dict, and its [Authorization] entry is the one it had. *)
Theorem cached_header_is_never_fetched_again cs w :
  cached_header w = true →
  let w' := perform_all api cs w in
  token_requests (trace w') = token_requests (trace w)
  ∧ _login (self w') = _login (self w)
  ∧ (heap w' !!! _login (self w')) !! "Authorization"
    = (heap w !!! _login (self w)) !! "Authorization".
Proof.
  revert w. induction cs as [|c cs IH]; intros w Hc; [done |].
  change (perform_all api (c :: cs) w)
    with (perform_all api cs (perform api c w)).
  destruct (perform_cached_effect c w Hc) as (Hl & _ & _ & Hh & t & Ht & Hs).
  assert (cached_header (perform api c w) = true) as Hc'.
  { unfold cached_header in *. rewrite Hl.
    destruct Hh as [-> | ->]; [done | apply truthy_dict_insert]. }
  destruct (IH _ Hc') as (H1 & H2 & H3). cbn zeta. split_and!.
  - rewrite H1, Ht, token_requests_app, (sent_with_no_token _ _ Hs). lia.
  - by rewrite H2.
  - rewrite H3, Hl.
    destruct Hh as [-> | ->]; [done | by rewrite lookup_insert_ne].
Qed.

(** *** Every request is authenticated *)

Lemma sent_with_authenticated cid sec h r :
  is_Some (h !! "Authorization") → sent_with h r → authenticated cid sec r.
Proof.
  intros Hauth. destruct r as [c s'|o lim hr|id hr sql]; cbn; [done | |].
  - intros [-> | ->]; [done | by rewrite lookup_insert_ne].
  - intros ->. split; [by rewrite lookup_insert_ne | apply lookup_insert_eq].
Qed.

Lemma perform_credentials c w :
  client_id (self (perform api c w)) = client_id (self w)
  ∧ secret (self (perform api c w)) = secret (self w).
Proof.
  destruct c as [|fuel|fuel x|fuel sql x]; cbn [perform].
  - destruct (login api w) as [o w'] eqn:H.
    by apply login_frame in H as (_ & _ & ? & ?).
  - destruct (tables api fuel w) as [o w'] eqn:H.
    by apply tables_frame in H as (_ & ? & ?).
  - destruct (find_table api fuel x w) as [o w'] eqn:H.
    by apply find_table_credentials in H.
  - destruct (query api fuel sql x w) as [o w'] eqn:H.
    by apply query_credentials in H.
Qed.

(** After a successful [login], the calls go on as if the header had
    been cached all along. *)
Lemma tables_after_login fuel w l w1 :
  cached_tables w = false →
  login api w = (Return l, w1) →
  tables api fuel w = tables api fuel w1.
Proof.
  intros Hc Hl.
  pose proof (login_frame _ _ _ _ Hl) as (Ht & _).
  pose proof (login_return _ _ _ _ Hl) as [Hlog Hch].
  rewrite (tables_uncached _ fuel w), Hl by done.
  rewrite (tables_uncached _ fuel w1) by (unfold cached_tables in *; by rewrite Ht).
  by rewrite login_cached, Hlog.
Qed.

Lemma query_after_login fuel sql x w l w1 :
  login api w = (Return l, w1) →
  query api fuel sql x w = query api fuel sql x w1.
Proof.
  intros Hl. pose proof (login_return _ _ _ _ Hl) as [Hlog Hch].
  rewrite (query_unfold _ fuel sql x w), Hl.
  by rewrite (query_unfold _ fuel sql x w1), login_cached, Hlog.
Qed.

Lemma perform_cached_authenticated cid sec c w :
  cached_header w = true → authorized w →
  Forall (authenticated cid sec) (trace w) →
  Forall (authenticated cid sec) (trace (perform api c w)).
Proof.
  intros Hc Hauth Htr.
  destruct (perform_cached_effect c w Hc) as (_ & _ & _ & _ & t & -> & Hs).
  apply Forall_app. split; [done |].
  eapply Forall_impl; [exact Hs |].
  intros r. apply sent_with_authenticated. by apply Hauth.
Qed.

Lemma perform_authenticated cid sec c w :
  authorized w →
  client_id (self w) = cid → secret (self w) = sec →
  Forall (authenticated cid sec) (trace w) →
  Forall (authenticated cid sec) (trace (perform api c w)).
Proof.
  intros Hauth Hcid Hsec Htr.
  destruct (cached_header w) eqn:Hc.
  { by apply perform_cached_authenticated. }
  pose proof (login_uncached_trace w Hc) as Hlt.
  pose proof (login_preserves_authorized api w Hauth) as Hauth1.
  assert (Forall (authenticated cid sec) (trace (login api w).2)) as Htr1.
  { rewrite Hlt. apply Forall_app. split; [done |]. by repeat constructor. }
  destruct c as [|fuel|fuel x|fuel sql x]; cbn [perform]; [done | ..].
  - destruct (cached_tables w) eqn:Hct; [by rewrite tables_cached |].
    destruct (login api w) as [[l| |] w1] eqn:Hl.
    + rewrite (tables_after_login fuel w l w1) by done.
      apply (perform_cached_authenticated cid sec (Tables fuel) w1);
        [by apply login_return in Hl as [_ ?] | done ..].
    + by rewrite tables_uncached, Hl.
    + by rewrite tables_uncached, Hl.
  - rewrite find_table_unfold.
    destruct (cached_tables w) eqn:Hct.
    { rewrite tables_cached by done.
      destruct (scan x _ w) as [o w'] eqn:Hs.
      apply scan_frame in Hs as (_ & _ & Ht & _). cbn. by rewrite Ht. }
    destruct (login api w) as [[l| |] w1] eqn:Hl.
    + rewrite (tables_after_login fuel w l w1) by done.
      apply (perform_cached_authenticated cid sec (FindTable fuel x) w1);
        [by apply login_return in Hl as [_ ?] | done ..].
    + by rewrite tables_uncached, Hl.
    + by rewrite tables_uncached, Hl.
  - destruct (login api w) as [[l| |] w1] eqn:Hl.
    + rewrite (query_after_login fuel sql x w l w1) by done.
      apply (perform_cached_authenticated cid sec (Query fuel sql x) w1);
        [by apply login_return in Hl as [_ ?] | done ..].
    + by rewrite query_unfold, Hl.
    + by rewrite query_unfold, Hl.
Qed.

(** X16. From a new connection on, every request carries what the
    service needs to accept it: a token request carries the credentials
    given at construction, a listing request the [Authorization] header,
    a query-execution request the [Authorization] header and
    [Accept: application/json]. *)
Theorem every_request_is_authenticated cid sec srv cs :
  Forall (authenticated cid sec)
         (trace (perform_all api cs (new_connection cid sec srv))).
Proof.
  pose proof (authorized_reachable api cid sec srv []) as Hauth.
  change (perform_all api [] (new_connection cid sec srv))
    with (new_connection cid sec srv) in Hauth.
  assert (client_id (self (new_connection cid sec srv)) = cid) as Hcid by done.
  assert (secret (self (new_connection cid sec srv)) = sec) as Hsec by done.
  assert (Forall (authenticated cid sec) (trace (new_connection cid sec srv)))
    as Htr by constructor.
  revert Hauth Hcid Hsec Htr. generalize (new_connection cid sec srv).
  induction cs as [|c cs IH]; intros w Hauth Hcid Hsec Htr; [done |].
  change (perform_all api (c :: cs) w)
    with (perform_all api cs (perform api c w)).
  destruct (perform_credentials c w) as [H1 H2].
  apply IH.
  - by apply perform_authorized.
  - by rewrite H1.
  - by rewrite H2.
  - by apply perform_authenticated.
Qed.

(** *** The catalog, once there *)

Lemma listing_requests_post (t : list Request) id h sql :
  listing_requests (t ++ [PostQuery id h sql]) = listing_requests t.
Proof.
  rewrite listing_requests_app.
  change (listing_requests [PostQuery id h sql]) with 0. lia.
Qed.

Lemma find_table_cached_tables fuel x w o w' :
  cached_tables w = true →
  find_table api fuel x w = (o, w') →
  _tables (self w') = _tables (self w) ∧ trace w' = trace w.
Proof.
  intros Hc. rewrite find_table_unfold, tables_cached by done.
  by intros (_ & _ & ? & _ & ?)%scan_frame.
Qed.

Lemma dataset_id_cached_tables fuel x w o w' :
  cached_tables w = true →
  dataset_id api fuel x w = (o, w') →
  _tables (self w') = _tables (self w) ∧ trace w' = trace w.
Proof.
  intros Hc. rewrite dataset_id_unfold.
  destruct (truthy_str x && truthy_last _).
  { by intros ->%last_id_frame. }
  destruct (negb (truthy_str x) && negb _); [by intros [= <- <-] |].
  destruct (find_table api fuel x w) as [[r| |] w1] eqn:Hf;
    apply find_table_cached_tables in Hf; try done;
    [| by intros [= <- <-] ..].
  by intros ->%last_id_frame.
Qed.

Lemma perform_keeps_catalog c w :
  cached_tables w = true →
  _tables (self (perform api c w)) = _tables (self w)
  ∧ listing_requests (trace (perform api c w)) = listing_requests (trace w).
Proof.
  intros Hc. destruct c as [|fuel|fuel x|fuel sql x]; cbn [perform].
  - destruct (login api w) as [o w'] eqn:Hl. cbn [snd].
    pose proof (login_listing _ _ _ _ Hl).
    by apply login_frame in Hl as (? & _).
  - by rewrite tables_cached.
  - destruct (find_table api fuel x w) as [o w'] eqn:Hf. cbn [snd].
    apply find_table_cached_tables in Hf as [? ->]; done.
  - rewrite query_unfold.
    destruct (login api w) as [[l| |] w1] eqn:Hl;
      pose proof (login_listing _ _ _ _ Hl) as Hn;
      apply login_frame in Hl as (Ht & _); [| done ..].
    destruct (dataset_id api fuel x (with_accept l w1)) as [[i| |] w2] eqn:Hd;
      apply dataset_id_cached_tables in Hd as [Ht2 Htr2];
      try (unfold cached_tables in *; cbn; by rewrite Ht);
      cbn in Ht2, Htr2; [| cbn [snd]; by rewrite Ht2, Htr2 ..].
    cbn zeta.
    destruct (query_execute _ _ _ _ _) as [srv' [|body]];
      [| destruct (columns body); [destruct (rows body) |]];
      cbn [snd self trace]; by rewrite listing_requests_post, Ht2, Htr2.
Qed.

(** X6. A catalog that is cached and not empty is never fetched again:
    after any sequence of [login], [tables], [find_table] and [query]
    calls [_tables] is the same list and the trace holds no new listing
    request. *)
Theorem cached_catalog_is_never_fetched_again cs w :
  cached_tables w = true →
  _tables (self (perform_all api cs w)) = _tables (self w)
  ∧ listing_requests (trace (perform_all api cs w))
    = listing_requests (trace w).
Proof.
  revert w. induction cs as [|c cs IH]; intros w Hc; [done |].
  change (perform_all api (c :: cs) w)
    with (perform_all api cs (perform api c w)).
  destruct (perform_keeps_catalog c w Hc) as [H1 H2].
  destruct (IH (perform api c w)) as [H3 H4].
  { unfold cached_tables in *. by rewrite H1. }
  by rewrite H3, H4.
Qed.

(** *** find_table *)

(** What the scan returns does not depend on the state it starts in. *)
Lemma scan_result x catalog w r w' :
  scan x catalog w = (Return r, w') →
  match r with
  | Some t => t ∈ catalog ∧ matches x t = true ∧ w' = resolved t w
  | None => Forall (λ t, matches x t = false) catalog ∧ w' = w
  end.
Proof.
  induction catalog as [|t rest IH].
  { intros [= <- <-]. by split. }
  rewrite scan_cons.
  destruct (t !! "name") as [n|] eqn:Hn; [| done].
  destruct (eq_str n x) eqn:En.
  { intros [= <- <-]. split_and!; [apply list_elem_of_here | | done].
    unfold matches, key_is. by rewrite Hn, En. }
  destruct (t !! "id") as [i|] eqn:Hi; [| done].
  destruct (eq_str i x) eqn:Ei.
  { intros [= <- <-]. split_and!; [apply list_elem_of_here | | done].
    unfold matches, key_is. by rewrite Hn, Hi, En, Ei. }
  intros H. apply IH in H. destruct r as [t'|].
  - destruct H as (? & ? & ?). split_and!; [by apply list_elem_of_further | done | done].
  - destruct H as [? ?]. split; [| done]. constructor; [| done].
    unfold matches, key_is. by rewrite Hn, Hi, En, Ei.
Qed.

Lemma scan_any_state x catalog w (v : World Srv) o w' :
  scan x catalog w = (o, w') →
  scan x catalog v
  = (o, match o with Return (Some t) => resolved t v | _ => v end).
Proof.
  induction catalog as [|t rest IH]; [by intros [= <- <-] |].
  rewrite !scan_cons.
  destruct (t !! "name") as [n|]; [| by intros [= <- <-]].
  destruct (eq_str n x); [by intros [= <- <-] |].
  destruct (t !! "id") as [i|]; [| by intros [= <- <-]].
  destruct (eq_str i x); [by intros [= <- <-] | done].
Qed.

Lemma matches_truthy x t : matches x t = true → truthy_dict t = true.
Proof.
  unfold matches, key_is. intros [H | H]%orb_prop.
  - destruct (t !! "name") eqn:E; [by eapply truthy_dict_lookup | done].
  - destruct (t !! "id") eqn:E; [by eapply truthy_dict_lookup | done].
Qed.

(** X7. Whenever [find_table] returns a table, that table is an entry
    of the cached catalog whose name or id equals the argument, it is
    what [_last_id_or_name] now holds, and it counts as set in the
    truth test of [query].  Whenever it returns [None], no entry of the
    catalog matches and [_last_id_or_name] is untouched. *)
Theorem find_table_result fuel x w r w' :
  find_table api fuel x w = (Return r, w') →
  match r with
  | Some t =>
      t ∈ _tables (self w') ∧ matches x t = true
      ∧ _last_id_or_name (self w') = LastTable t
      ∧ truthy_last (_last_id_or_name (self w')) = true
  | None =>
      Forall (λ t, matches x t = false) (_tables (self w'))
      ∧ _last_id_or_name (self w') = _last_id_or_name (self w)
  end.
Proof.
  rewrite find_table_unfold.
  destruct (tables api fuel w) as [[catalog| |] w1] eqn:Ht; [| done ..].
  pose proof (tables_returns_attribute _ _ _ _ Ht) as Hcat.
  pose proof (tables_frame _ _ _ _ _ Ht) as (Hlast & _).
  intros H%scan_result. destruct r as [t|].
  - destruct H as (Hin & Hm & ->). cbn. rewrite Hcat.
    split_and!; try done. by apply (matches_truthy x).
  - destruct H as [Hall ->]. by rewrite Hcat.
Qed.

Lemma scan_skip_prefix x pre rest (v : World Srv) :
  Forall (λ t', well_formed t' = true ∧ matches x t' = false) pre →
  scan x (pre ++ rest) v = scan x rest v.
Proof.
  induction 1 as [|t' pre [Hw Hm] _ IH]; [done |].
  cbn [app]. by rewrite scan_skip.
Qed.

(** X8. An entry without a name stops the scan with [KeyError: name],
    an entry whose name differs and that has no id with
    [KeyError: id]; the entries after it are not looked at and
    [_last_id_or_name] is untouched. *)
Theorem find_table_missing_key fuel x w catalog w1 pre t post :
  tables api fuel w = (Return catalog, w1) →
  catalog = pre ++ t :: post →
  Forall (λ t', well_formed t' = true ∧ matches x t' = false) pre →
  _last_id_or_name (self w1) = _last_id_or_name (self w)
  ∧ (t !! "name" = None →
     find_table api fuel x w = (Raise (KeyError "name"), w1))
  ∧ (key_is "name" x t = false → is_Some (t !! "name") → t !! "id" = None →
     find_table api fuel x w = (Raise (KeyError "id"), w1)).
Proof.
  intros Ht -> Hpre.
  pose proof (λ v, scan_skip_prefix x pre (t :: post) v Hpre) as Hskip.
  split_and!.
  - by apply tables_frame in Ht as (? & _).
  - intros Hn. by rewrite find_table_unfold, Ht, Hskip, scan_cons, Hn.
  - unfold key_is. intros Hk [n Hn] Hi. rewrite Hn in Hk.
    by rewrite find_table_unfold, Ht, Hskip, scan_cons, Hn, Hk, Hi.
Qed.

(** X9. Resolving the same argument again gives the same table and
    changes nothing: no request is sent and the state is the same. *)
Theorem find_table_again fuel fuel' x w t w1 :
  find_table api fuel x w = (Return (Some t), w1) →
  find_table api fuel' x w1 = (Return (Some t), w1).
Proof.
  rewrite (find_table_unfold _ fuel).
  destruct (tables api fuel w) as [[catalog| |] w0] eqn:Ht; [| done ..].
  pose proof (tables_returns_attribute _ _ _ _ Ht) as Hcat.
  intros Hs. pose proof (scan_result _ _ _ _ _ Hs) as (Hin & _ & ->).
  rewrite find_table_unfold, tables_cached.
  - cbn [resolved self set_last _tables]. rewrite Hcat.
    by rewrite (scan_any_state _ _ _ (resolved t w0) _ _ Hs).
  - unfold cached_tables. cbn. rewrite Hcat.
    destruct catalog; [by apply elem_of_nil in Hin | done].
Qed.

(** X10. What the test of [find_table] checks: after [tables], both the
    id and the name of the first entry of the catalog resolve to that
    entry, and each time it is what [_last_id_or_name] holds. *)
Theorem find_table_first_entry fuel fuel1 fuel2 w t0 rest w1 i n :
  tables api fuel w = (Return (t0 :: rest), w1) →
  t0 !! "id" = Some (VStr i) →
  t0 !! "name" = Some (VStr n) →
  find_table api fuel1 i w1 = (Return (Some t0), resolved t0 w1)
  ∧ find_table api fuel2 n (resolved t0 w1)
    = (Return (Some t0), resolved t0 w1)
  ∧ _last_id_or_name (self (resolved t0 w1)) = LastTable t0.
Proof.
  intros Ht Hi Hn.
  pose proof (tables_returns_attribute _ _ _ _ Ht) as Hcat.
  assert (∀ v : World Srv, _tables (self v) = t0 :: rest →
               tables api fuel1 v = (Return (t0 :: rest), v)
               ∧ tables api fuel2 v = (Return (t0 :: rest), v)) as Hc.
  { intros v Hv. rewrite !tables_cached by (unfold cached_tables; by rewrite Hv).
    by rewrite Hv. }
  split_and!; [| | done].
  - rewrite find_table_unfold.
    destruct (Hc w1 Hcat) as [-> _].
    apply scan_stop_id; [by eexists |].
    unfold key_is. rewrite Hi. by apply bool_decide_eq_true_2.
  - rewrite find_table_unfold.
    destruct (Hc (resolved t0 w1) Hcat) as [_ ->].
    rewrite scan_stop_name; [done |].
    unfold key_is. rewrite Hn. by apply bool_decide_eq_true_2.
Qed.

(** *** query *)

(** When exactly one of the argument and [_last_id_or_name] is truthy,
    [query] takes its [else] branch. *)
Lemma dataset_id_else fuel x w :
  (x ≠ "" ∧ truthy_last (_last_id_or_name (self w)) = false)
    ∨ (x = "" ∧ truthy_last (_last_id_or_name (self w)) = true) →
  dataset_id api fuel x w =
    match find_table api fuel x w with
    | (Return _, w1) => last_id (_last_id_or_name (self w1)) w1
    | (Raise e, w1) => (Raise e, w1)
    | (Diverge, w1) => (Diverge, w1)
    end.
Proof.
  intros Hcase. rewrite dataset_id_unfold.
  destruct Hcase as [[Hx ->] | [-> ->]].
  - replace (truthy_str x) with true
      by (unfold truthy_str; by rewrite bool_decide_eq_false_2).
    done.
  - done.
Qed.

Lemma heap_after_tables fuel l w1 catalog w2 :
  _login (self w1) = l → cached_header w1 = true →
  tables api fuel (with_accept l w1) = (Return catalog, w2) →
  heap w2 !!! l = <["Accept" := "application/json"]> (heap w1 !!! l).
Proof.
  intros Hlog Hc Ht.
  apply tables_header in Ht as [-> _]; [apply with_accept_lookup |].
  by apply with_accept_cached.
Qed.

(** X11. When exactly one of [id_or_name] and [_last_id_or_name] is
    truthy, [query] resolves the argument with [find_table]: if the
    first matching entry of the catalog has an id, the query-execution
    request goes to that id (never to the name), after the requests of
    [login] and [tables], and that entry is [_last_id_or_name]
    afterwards, whatever the outcome of the request. *)
Theorem query_resolves_then_posts fuel sql x w l w1 catalog w2 pre t post i :
  (x ≠ "" ∧ truthy_last (_last_id_or_name (self w)) = false)
    ∨ (x = "" ∧ truthy_last (_last_id_or_name (self w)) = true) →
  login api w = (Return l, w1) →
  tables api fuel (with_accept l w1) = (Return catalog, w2) →
  catalog = pre ++ t :: post →
  Forall (λ t', well_formed t' = true ∧ matches x t' = false) pre →
  key_is "name" x t = true
    ∨ (is_Some (t !! "name") ∧ key_is "id" x t = true) →
  t !! "id" = Some i →
  ∃ o w',
    query api fuel sql x w = (o, w')
    ∧ trace w' =
        trace w2 ++ [PostQuery (py_str i)
                       (<["Accept" := "application/json"]> (heap w1 !!! l))
                       (sql_or_default sql)]
    ∧ _last_id_or_name (self w') = LastTable t.
Proof.
  intros Hcase Hl Ht -> Hpre Hhit Hi.
  pose proof (login_frame _ _ _ _ Hl) as (_ & Hlast1 & _).
  pose proof (login_return _ _ _ _ Hl) as [Hlog Hc].
  pose proof (heap_after_tables _ _ _ _ _ Hlog Hc Ht) as Hh.
  rewrite query_unfold, Hl, dataset_id_else by (cbn; by rewrite Hlast1).
  rewrite find_table_unfold, Ht, scan_hit by done.
  cbn [last_id resolved self set_last _last_id_or_name].
  unfold getitem. rewrite Hi. unfold ret. cbn zeta.
  change (heap (resolved t w2)) with (heap w2).
  change (trace (resolved t w2)) with (trace w2). rewrite Hh.
  destruct (query_execute _ _ _ _ _) as [srv' [|body]];
    [| destruct (columns body); [destruct (rows body) |]];
    by eexists _, _.
Qed.

(** X12. With a table in [_last_id_or_name] and no [id_or_name],
    [query] still runs [find_table] on the empty string, which needs
    the catalog; when no entry is named or identified by the empty
    string, the request goes to the id of the table in
    [_last_id_or_name], which stays as it is. *)
Theorem query_without_id_reuses_last fuel sql w l w1 catalog w2 t i :
  _last_id_or_name (self w) = LastTable t →
  t !! "id" = Some i →
  login api w = (Return l, w1) →
  tables api fuel (with_accept l w1) = (Return catalog, w2) →
  Forall (λ t', well_formed t' = true ∧ matches "" t' = false) catalog →
  ∃ o w',
    query api fuel sql "" w = (o, w')
    ∧ trace w' =
        trace w2 ++ [PostQuery (py_str i)
                       (<["Accept" := "application/json"]> (heap w1 !!! l))
                       (sql_or_default sql)]
    ∧ _last_id_or_name (self w') = LastTable t.
Proof.
  intros Hlast Hi Hl Ht Hmiss.
  pose proof (login_frame _ _ _ _ Hl) as (_ & Hlast1 & _).
  pose proof (login_return _ _ _ _ Hl) as [Hlog Hc].
  pose proof (heap_after_tables _ _ _ _ _ Hlog Hc Ht) as Hh.
  pose proof (tables_frame _ _ _ _ _ Ht) as (Hlast2 & _).
  cbn in Hlast2. rewrite Hlast1, Hlast in Hlast2.
  rewrite query_unfold, Hl, dataset_id_else.
  2:{ right. split; [done |]. cbn. rewrite Hlast1, Hlast. cbn.
      by eapply truthy_dict_lookup. }
  rewrite find_table_unfold, Ht, scan_miss by done.
  rewrite Hlast2. cbn [last_id]. unfold getitem. rewrite Hi. unfold ret.
  cbn zeta. rewrite Hh.
  destruct (query_execute _ _ _ _ _) as [srv' [|body]];
    [| destruct (columns body); [destruct (rows body) |]];
    by eexists _, _.
Qed.

Lemma sql_or_default_decide sql :
  sql_or_default sql
  = if decide (sql = "") then "select * from table" else sql.
Proof.
  unfold sql_or_default, truthy_str.
  destruct (decide (sql = "")) as [-> | Hne]; [done |].
  by rewrite bool_decide_eq_false_2.
Qed.

(** X13. One [query] call sends at most one query-execution request
    and it is the last request of the call; a call that returns rows
    has sent exactly one.  The request carries the Accept entry and the
    given SQL text, or [select * from table] when the text is empty. *)
Theorem query_posts_at_most_once fuel sql x w o w' :
  query api fuel sql x w = (o, w') →
  ∃ before posts,
    trace w' = trace w ++ before ++ posts
    ∧ Forall (λ r, is_post r = false) before
    ∧ (posts = []
       ∨ ∃ id h,
           posts = [PostQuery id h
                      (if decide (sql = "") then "select * from table"
                       else sql)]
           ∧ h !! "Accept" = Some "application/json")
    ∧ (∀ data, o = Return data → posts ≠ []).
Proof.
  intros Hq. destruct (login api w) as [[l| |] w1] eqn:Hl.
  - pose proof (login_trace _ _ _ _ Hl) as (t1 & Ht1 & Hp1).
    pose proof (query_shape _ _ _ _ _ _ _ _ Hl Hq) as (n & posts & Ht & Hp & Hr).
    exists (t1 ++ page_requests
                    (<["Accept" := "application/json"]> (heap w1 !!! l)) 0 n),
           posts.
    split_and!.
    + by rewrite Ht, Ht1, <- !(assoc_L (++)).
    + apply Forall_app. split; [done |]. by apply Forall_page_requests.
    + destruct Hp as [-> | [id ->]]; [by left | right].
      eexists _, _. rewrite <- sql_or_default_decide.
      split; [done | apply lookup_insert_eq].
    + done.
  - rewrite query_unfold, Hl in Hq. injection Hq as <- <-.
    apply login_trace in Hl as (t1 & Ht1 & Hp1).
    exists t1, []. rewrite app_nil_r. split_and!; [done | done | by left | done].
  - by pose proof (login_total api w) as Hd; rewrite Hl in Hd.
Qed.

(** *** The records of a result *)

Lemma py_dict_dom pairs : dom (py_dict pairs) = list_to_set pairs.*1.
Proof.
  induction pairs as [|[k v] pairs IH] using rev_ind; [apply dom_empty_L |].
  rewrite py_dict_snoc, dom_insert_L, IH, fmap_app, list_to_set_app_L.
  cbn. rewrite (right_id_L ∅ (∪)). apply (comm_L (∪)).
Qed.

Lemma fst_zip_take (cols : list string) (row : list value) :
  (zip cols row).*1 = take (length row) cols.
Proof.
  revert row. induction cols as [|c cols IH]; intros [|v row]; cbn; try done.
  by rewrite IH.
Qed.

(** X15. The keys of the record built for a row are the column names at
    the positions the row has: a row shorter than [columns] gives a
    record without the remaining names, the cells of a longer row
    beyond [columns] are dropped, and an empty row gives the empty
    record. *)
Theorem record_keys (cols : list string) (row : list value) :
  dom (py_dict (zip cols row)) = list_to_set (take (length row) cols)
  ∧ (length cols ≤ length row →
     dom (py_dict (zip cols row)) = list_to_set cols)
  ∧ (row = [] → py_dict (zip cols row) = ∅).
Proof.
  split_and!.
  - by rewrite py_dict_dom, fst_zip_take.
  - intros Hle. by rewrite py_dict_dom, fst_zip.
  - intros ->. by destruct cols.
Qed.

(** *** Retrying after a failed pass *)

(** X14. When [tables] fails during the pagination, the pages already
    received are dropped, and the next access does not resume: it
    starts a new pass with the request for offset 0, sent with the
    header cached by the failed call, without a new token request. *)
Theorem tables_failure_restarts_from_zero fuel fuel' w l w1 e w' :
  login api w = (Return l, w1) →
  tables api fuel w = (Raise e, w') →
  _tables (self w') = _tables (self w)
  ∧ ∃ t, trace (tables api (S fuel') w').2
         = trace w' ++ GetDatasets 0 limit (heap w1 !!! l) :: t
         ∧ token_requests (GetDatasets 0 limit (heap w1 !!! l) :: t) = 0.
Proof.
  intros Hl Ht.
  destruct (cached_tables w) eqn:Hc; [by rewrite tables_cached in Ht |].
  pose proof (login_frame _ _ _ _ Hl) as (Htab & _).
  pose proof (login_return _ _ _ _ Hl) as [Hlog Hch].
  rewrite tables_uncached, Hl in Ht by done.
  destruct (fetch api fuel l 0 [] w1) as [[ds| |] w2] eqn:Hf; [done | | done].
  injection Ht as <- <-. apply fetch_frame in Hf as [Hs Hh].
  assert (cached_header w2 = true) as Hch2.
  { unfold cached_header in *. by rewrite Hs, Hh. }
  assert (cached_tables w2 = false) as Hc2.
  { unfold cached_tables in *. by rewrite Hs, Htab. }
  split; [by rewrite Hs |].
  destruct (tables api (S fuel') w2) as [o w3] eqn:Ht2. cbn [snd].
  pose proof (tables_shape _ _ _ _ Hch2 Ht2) as (n & Hn).
  rewrite Hs, Hlog, Hh in Hn.
  rewrite tables_uncached, login_cached in Ht2 by done.
  destruct (fetch_first_request api fuel' (_login (self w2)) 0 [] w2)
    as [t Hfr].
  assert (trace w3 = trace (fetch api (S fuel') (_login (self w2)) 0 [] w2).2)
    as Hw3.
  { destruct (fetch api (S fuel') _ 0 [] w2) as [[ds| |] w4];
      by injection Ht2 as <- <-. }
  rewrite Hw3, Hfr, Hs, Hlog, Hh. exists t. split; [done |].
  rewrite Hw3, Hfr, Hs, Hlog, Hh in Hn. apply app_inv_head in Hn.
  rewrite Hn. apply (sent_with_no_token (heap w1 !!! l)).
  apply Forall_page_requests. by left.
Qed.

End Behaviour.

(** * The further properties at concrete inputs *)

Lemma tables_failure_restarts_from_zero_witness :
  ∃ t, trace (tables second_page_fails 1
                (tables second_page_fails 5 fresh_world).2).2
       = trace (tables second_page_fails 5 fresh_world).2
         ++ GetDatasets 0 limit {[ "Authorization" := "bearer t0k3n" ]} :: t.
Proof.
  destruct (tables_failure_restarts_from_zero second_page_fails 5 0
              fresh_world 1 (login second_page_fails fresh_world).2
              RequestError (tables second_page_fails 5 fresh_world).2)
    as (_ & t & Ht & _).
  - vm_compute; reflexivity.
  - vm_compute; reflexivity.
  - exists t. exact Ht.
Defined.

Lemma login_failure_is_not_cached_witness :
  login no_token fresh_world
    = (Raise RequestError, (login no_token fresh_world).2)
  ∧ trace (login no_token (login no_token fresh_world).2).2
    = [GetToken "client" "s3cret"; GetToken "client" "s3cret"].
Proof.
  assert (login no_token fresh_world
          = (Raise RequestError, (login no_token fresh_world).2)) as H
    by (vm_compute; reflexivity).
  split; [exact H |].
  destruct (login_failure_is_not_cached no_token fresh_world RequestError
              (login no_token fresh_world).2 H) as (_ & _ & Ht & Ht2).
  rewrite Ht2, Ht. reflexivity.
Defined.

Lemma cached_header_is_never_fetched_again_witness :
  cached_header sales_resolved = true
  ∧ token_requests
      (trace (perform_all sales_api
                [Query 5 "" ""; Tables 5; Login] sales_resolved)) = 1.
Proof.
  assert (cached_header sales_resolved = true) as H
    by (vm_compute; reflexivity).
  split; [exact H |].
  pose proof (cached_header_is_never_fetched_again sales_api
                [Query 5 "" ""; Tables 5; Login] sales_resolved H) as Hx.
  cbn zeta in Hx. destruct Hx as (Hx & _). rewrite Hx.
  vm_compute; reflexivity.
Defined.

Lemma tables_concatenates_pages_witness :
  (∃ w', tables capped 5 fresh_world
         = (Return (collected capped_pages 2), w'))
  ∧ length (collected capped_pages 2) = 35.
Proof.
  split; [| vm_compute; reflexivity].
  destruct (tables_concatenates_pages capped capped_pages 5 2 fresh_world 1
              (login capped fresh_world).2) as (w' & H & _).
  - intros s offset lim h. reflexivity.
  - reflexivity.
  - vm_compute; reflexivity.
  - intros i Hi E. apply (f_equal length) in E.
    destruct i as [|[|i]]; [| | lia]; vm_compute in E; discriminate.
  - vm_compute; reflexivity.
  - lia.
  - exists w'. exact H.
Defined.

Lemma tables_never_returns_witness :
  ∃ w', tables endless 7 fresh_world = (Diverge, w')
        ∧ _tables (self w') = []
        ∧ listing_requests (trace w') = 7.
Proof.
  apply (tables_never_returns endless 7 fresh_world 1
           (login endless fresh_world).2).
  - intros s offset lim h. by eexists _, _.
  - reflexivity.
  - vm_compute; reflexivity.
Defined.

Lemma tables_returns_whole_catalog_witness :
  ∃ w', tables (paged (catalog_of_size 7) body_id_val) 3 fresh_world
        = (Return (catalog_of_size 7), w')
        ∧ _tables (self w') = catalog_of_size 7
        ∧ listing_requests (trace w') = 2.
Proof.
  apply (tables_returns_whole_catalog (paged (catalog_of_size 7) body_id_val)
           (catalog_of_size 7) 3 fresh_world 1
           (login (paged (catalog_of_size 7) body_id_val) fresh_world).2).
  - apply paged_serves.
  - reflexivity.
  - vm_compute; reflexivity.
  - vm_compute; lia.
Defined.

Lemma cached_catalog_is_never_fetched_again_witness :
  cached_tables sales_resolved = true
  ∧ listing_requests
      (trace (perform_all sales_api
                [Query 5 "" "A2"; Tables 5; FindTable 5 "Inventory"]
                sales_resolved)) = 2.
Proof.
  assert (cached_tables sales_resolved = true) as H
    by (vm_compute; reflexivity).
  split; [exact H |].
  destruct (cached_catalog_is_never_fetched_again sales_api
              [Query 5 "" "A2"; Tables 5; FindTable 5 "Inventory"]
              sales_resolved H) as [_ Hx].
  rewrite Hx. vm_compute; reflexivity.
Defined.

Lemma find_table_result_witness :
  dataset "A2" "Inventory"
    ∈ _tables (self (find_table sales_api 5 "Inventory" fresh_world).2)
  ∧ _last_id_or_name (self (find_table sales_api 5 "Inventory" fresh_world).2)
    = LastTable (dataset "A2" "Inventory").
Proof.
  pose proof (find_table_result sales_api 5 "Inventory" fresh_world
                (Some (dataset "A2" "Inventory"))
                (find_table sales_api 5 "Inventory" fresh_world).2) as H.
  cbn beta iota in H. destruct H as (H1 & _ & H3 & _).
  - vm_compute; reflexivity.
  - split; [exact H1 | exact H3].
Defined.

Lemma find_table_missing_key_witness :
  find_table nameless_api 5 "Stock" fresh_world
  = (Raise (KeyError "name"), (tables nameless_api 5 fresh_world).2).
Proof.
  destruct (find_table_missing_key nameless_api 5 "Stock" fresh_world
              nameless_catalog (tables nameless_api 5 fresh_world).2
              [dataset "A1" "Sales"] {[ "id" := VStr "A2" ]}
              [dataset "A3" "Stock"]) as (_ & H & _).
  - vm_compute; reflexivity.
  - reflexivity.
  - by repeat constructor.
  - apply H. reflexivity.
Defined.

Lemma find_table_again_witness :
  find_table sales_api 1 "Sales" sales_resolved
  = (Return (Some (dataset "A1" "Sales")), sales_resolved).
Proof.
  apply (find_table_again sales_api 5 1 "Sales" fresh_world).
  vm_compute; reflexivity.
Defined.

Lemma find_table_first_entry_witness :
  find_table sales_api 1 "A1" (tables sales_api 5 fresh_world).2
  = (Return (Some (dataset "A1" "Sales")),
     resolved (dataset "A1" "Sales") (tables sales_api 5 fresh_world).2)
  ∧ find_table sales_api 1 "Sales"
      (resolved (dataset "A1" "Sales") (tables sales_api 5 fresh_world).2)
    = (Return (Some (dataset "A1" "Sales")),
       resolved (dataset "A1" "Sales") (tables sales_api 5 fresh_world).2).
Proof.
  destruct (find_table_first_entry sales_api 5 1 1 fresh_world
              (dataset "A1" "Sales") [dataset "A2" "Inventory"]
              (tables sales_api 5 fresh_world).2 "A1" "Sales")
    as (H1 & H2 & _).
  - vm_compute; reflexivity.
  - reflexivity.
  - reflexivity.
  - split; [exact H1 | exact H2].
Defined.

Lemma query_resolves_then_posts_witness :
  ∃ o w',
    query sales_api 5 "" "Inventory" fresh_world = (o, w')
    ∧ trace w' =
        trace (tables sales_api 5
                 (with_accept 1 (login sales_api fresh_world).2)).2
        ++ [PostQuery "A2"
              (<["Accept" := "application/json"]>
                 (heap (login sales_api fresh_world).2 !!! 1))
              "select * from table"]
    ∧ _last_id_or_name (self w') = LastTable (dataset "A2" "Inventory").
Proof.
  apply (query_resolves_then_posts sales_api 5 "" "Inventory" fresh_world 1
           (login sales_api fresh_world).2 sales_catalog
           (tables sales_api 5
              (with_accept 1 (login sales_api fresh_world).2)).2
           [dataset "A1" "Sales"] (dataset "A2" "Inventory") []
           (VStr "A2")).
  - left. split; [discriminate | reflexivity].
  - vm_compute; reflexivity.
  - vm_compute; reflexivity.
  - reflexivity.
  - by repeat constructor.
  - left. reflexivity.
  - reflexivity.
Defined.

Lemma query_without_id_reuses_last_witness :
  ∃ o w',
    query sales_api 5 "select 1 from table" "" sales_resolved = (o, w')
    ∧ trace w' =
        trace (tables sales_api 5
                 (with_accept 1 (login sales_api sales_resolved).2)).2
        ++ [PostQuery "A1"
              (<["Accept" := "application/json"]>
                 (heap (login sales_api sales_resolved).2 !!! 1))
              "select 1 from table"]
    ∧ _last_id_or_name (self w') = LastTable (dataset "A1" "Sales").
Proof.
  apply (query_without_id_reuses_last sales_api 5 "select 1 from table"
           sales_resolved 1 (login sales_api sales_resolved).2 sales_catalog
           (tables sales_api 5
              (with_accept 1 (login sales_api sales_resolved).2)).2
           (dataset "A1" "Sales") (VStr "A1")).
  - vm_compute; reflexivity.
  - reflexivity.
  - vm_compute; reflexivity.
  - vm_compute; reflexivity.
  - by repeat constructor.
Defined.

Lemma query_posts_at_most_once_witness :
  ∃ before posts,
    trace (query sales_api 5 "" "A1" fresh_world).2
    = trace fresh_world ++ before ++ posts
    ∧ posts ≠ [].
Proof.
  destruct (query_posts_at_most_once sales_api 5 "" "A1" fresh_world
              (Return [ {[ "id" := VInt 1; "val" := VStr "x" ]};
                        {[ "id" := VInt 2; "val" := VStr "y" ]} ])
              (query sales_api 5 "" "A1" fresh_world).2)
    as (before & posts & Ht & _ & _ & Hr).
  - vm_compute; reflexivity.
  - exists before, posts. split; [exact Ht |]. by eapply Hr.
Defined.

End domo_query.
